(** * Disk scheduling simulator: the four policies of [app.py] and the
      metrics of its two handlers, embedded and checked against the
      written specification.

    Layout of the development:
    - [Py]      outcomes of Python evaluation (value, exception, fuel) and
                the builtins the policies call ([sorted], [min], [sum],
                indexing, [list.remove], true division);
    - [Engine]  the four policies on list values;
    - [Handlers] the "Run Simulation" and "Compare All Algorithms" bodies;
    - [Store]   the same policies over a store of list objects, where
                [append] and [remove] update an object in place. *)

From Stdlib Require Import QArith Qcanon Ascii.
From stdpp Require Import gmap list sorting strings.

Close Scope Q_scope.
Close Scope Qc_scope.

Local Open Scope Z_scope.

(** ** Python evaluation outcomes and builtins *)

Module Py.

(** Exceptions the embedded code can raise. *)
Inductive exn : Set :=
  | ZeroDivisionError
  | ValueError
  | IndexError
  | KeyError
  | SystemError
  | OverflowError.

(** An evaluation returns a value, raises, or (for the [while] loop, which
    is run with a step budget) exhausts its budget. *)
Inductive outcome (A : Type) : Type :=
  | Ok (a : A)
  | Raise (e : exn)
  | OutOfFuel.
Arguments Ok {A} a.
Arguments Raise {A} e.
Arguments OutOfFuel {A}.

#[global] Instance outcome_ret : MRet outcome := λ A a, Ok a.
#[global] Instance outcome_bind : MBind outcome := λ A B f m,
  match m with
  | Ok a => f a
  | Raise e => Raise e
  | OutOfFuel => OutOfFuel
  end.

(** [len(l)] as a Python int. *)
Definition len (l : list Z) : Z := Z.of_nat (length l).

(** [l[i]]: a negative index counts from the end; out of range raises
    [IndexError]. *)
Definition index (l : list Z) (i : Z) : outcome Z :=
  let j := if decide (i < 0) then i + len l else i in
  if decide (j < 0) then Raise IndexError
  else match l !! Z.to_nat j with
       | Some x => Ok x
       | None => Raise IndexError
       end.

(** [range(a, b)]. *)
Definition range (a b : Z) : list Z := seqZ a (b - a).

(** [sum(xs)]: left to right from [0]. *)
Definition sum (xs : list Z) : Z := foldl Z.add 0 xs.

(** A [for x in xs: s = body(s, x)] loop whose body may raise. *)
Fixpoint for_each `{MBind M, MRet M} {A S : Type}
    (xs : list A) (body : S → A → M S) (s : S) : M S :=
  match xs with
  | [] => mret s
  | x :: xs' => s' ← body s x; for_each xs' body s'
  end.

(** [sorted(l)] on ints: the ascending rearrangement of [l]. *)
Definition sorted (l : list Z) : list Z := merge_sort Z.le l.

(** [min(l, key=key)]: the first element whose key is minimal (a later
    element replaces the candidate only when its key is strictly smaller);
    [ValueError] on an empty list. *)
Definition min_key (key : Z → Z) (l : list Z) : outcome Z :=
  match l with
  | [] => Raise ValueError
  | x :: xs => Ok (foldl (λ best y, if decide (key y < key best) then y else best) x xs)
  end.

(** [l.remove(x)]: drops the first element equal to [x]; [ValueError] when
    there is none. *)
Fixpoint remove (x : Z) (l : list Z) : outcome (list Z) :=
  match l with
  | [] => Raise ValueError
  | y :: l' => if decide (y = x) then Ok l' else l'' ← remove x l'; mret (y :: l'')
  end.

(** Numbers the handlers display: an [int], or the [float] produced by
    true division. A float is kept as the real number the double denotes
    (so the two zeros are one number). *)
Inductive number : Set :=
  | Int (z : Z)
  | Float (q : Qc).

(** The nearest integer to [n / d] for [d > 0], ties to the even one. *)
Definition round_half_even (n d : Z) : Z :=
  let q := n / d in
  let r := n mod d in
  if decide (2 * r < d) then q
  else if decide (d < 2 * r) then q + 1
  else if Z.even q then q else q + 1.

(** [floor (log2 (n / d))] for [n, d > 0]. *)
Definition quotient_exponent (n d : Z) : Z :=
  let e := Z.log2 n - Z.log2 d in
  if decide (d * 2 ^ Z.max 0 e ≤ n * 2 ^ Z.max 0 (- e)) then e else e - 1.

(** The double nearest to [a / b] ([b ≠ 0]), ties to even: 53 significant
    bits, and no bit below [2^-1074]. *)
Definition nearest_double (a b : Z) : Qc :=
  if decide (a = 0) then 0%Qc
  else
    let n := Z.abs a in
    let d := Z.abs b in
    let u := Z.max (quotient_exponent n d - 52) (-1074) in
    let m := round_half_even (n * 2 ^ Z.max 0 (- u)) (d * 2 ^ Z.max 0 u) in
    let magnitude := (Qc_of_Z (m * 2 ^ Z.max 0 u) / Qc_of_Z (2 ^ Z.max 0 (- u)))%Qc in
    if decide (Z.sgn a = Z.sgn b) then magnitude else (- magnitude)%Qc.

(** A quotient of this magnitude or more rounds beyond the largest double
    [2^1024 - 2^971]: it is at least half way to [2^1024]. *)
Definition double_overflow : Z := 2 ^ 1024 - 2 ^ 970.

(** [a / b] on ints: the correctly rounded quotient; [ZeroDivisionError] for
    a zero divisor, [OverflowError] when the quotient is too large for a
    float. *)
Definition truediv (a b : Z) : outcome number :=
  if decide (b = 0) then Raise ZeroDivisionError
  else if decide (double_overflow * Z.abs b ≤ Z.abs a) then Raise OverflowError
  else Ok (Float (nearest_double a b)).

End Py.

Import Py.

(** ** The scheduling policies (value level) *)

Module Engine.

(** [sum(abs(order[i] - order[i - 1]) for i in range(1, len(order)))] *)
Definition seek_total (order : list Z) : outcome Z :=
  terms ← mapM (λ i, a ← index order i; b ← index order (i - 1); mret (Z.abs (a - b)))
               (range 1 (len order));
  mret (sum terms).

(** [def fcfs(requests, head)] *)
Definition fcfs (requests : list Z) (head : Z) : outcome (list Z * Z) :=
  let order := [head] ++ requests in
  total ← seek_total order;
  mret (order, total).

(** The [while reqs:] loop of [sstf], with a step budget. *)
Fixpoint sstf_loop (fuel : nat) (reqs order : list Z) (current : Z)
    : outcome (list Z) :=
  match reqs with
  | [] => Ok order
  | _ :: _ =>
      match fuel with
      | O => OutOfFuel
      | S fuel' =>
          nearest ← min_key (λ x, Z.abs (x - current)) reqs;
          let order := order ++ [nearest] in
          reqs ← remove nearest reqs;
          sstf_loop fuel' reqs order nearest
      end
  end.

(** [def sstf(requests, head)], run with a budget of [fuel] iterations. *)
Definition sstf_within (fuel : nat) (requests : list Z) (head : Z)
    : outcome (list Z * Z) :=
  let reqs := requests in
  order ← sstf_loop fuel reqs [head] head;
  total ← seek_total order;
  mret (order, total).

(** One iteration per request is enough (see [sstf_within_enough]). *)
Definition sstf (requests : list Z) (head : Z) : outcome (list Z * Z) :=
  sstf_within (length requests) requests head.

(** [def scan(requests, head, disk_size=200)]; [left[::-1]] is [reverse left],
    and the chain of [+] is written with the (associative) [++]. *)
Definition scan (requests : list Z) (head disk_size : Z) : outcome (list Z * Z) :=
  let left := sorted (filter (λ r, r < head) requests) in
  let right := sorted (filter (λ r, r >= head) requests) in
  let order := [head] ++ right ++ [disk_size - 1] ++ reverse left in
  total ← seek_total order;
  mret (order, total).

(** [def c_scan(requests, head, disk_size=200)] *)
Definition c_scan (requests : list Z) (head disk_size : Z) : outcome (list Z * Z) :=
  let left := sorted (filter (λ r, r < head) requests) in
  let right := sorted (filter (λ r, r >= head) requests) in
  let order := [head] ++ right ++ [disk_size - 1; 0] ++ left in
  let total := 0 in
  total ← for_each (range 1 (len order))
             (λ total i, a ← index order i; b ← index order (i - 1);
                         mret (total + Z.abs (a - b)))
             total;
  mret (order, total).

(** SeekCost as the specification words it: the sum of
    [|VisitOrder[i] - VisitOrder[i-1]|] over consecutive pairs. *)
Fixpoint SeekCost (order : list Z) : Z :=
  match order with
  | a :: (b :: _) as rest => Z.abs (b - a) + SeekCost rest
  | _ => 0
  end.

(** The VisitOrder invariant as the specification words it: the policy
    returns an order one longer than the request list whose elements after
    the head are, as a multiset, the requests. *)
Definition visits_requests_only (requests : list Z) (result : outcome (list Z * Z)) : Prop :=
  ∃ order total,
    result = Ok (order, total)
    ∧ length order = S (length requests)
    ∧ tail order ≡ₚ requests.

(** The selection rule of the specification for SSTF: in the remaining
    requests [before ++ x :: after], [x] is at minimal distance from
    [current] and is the first such element. *)
Definition nearest_first (current : Z) (before : list Z) (x : Z) (after : list Z) : Prop :=
  Forall (λ y, Z.abs (x - current) < Z.abs (y - current)) before ∧
  Forall (λ y, Z.abs (x - current) ≤ Z.abs (y - current)) after.

(** The specification's greedy service order: pick by [nearest_first],
    remove the picked request, continue from it. *)
Inductive greedy_order : Z → list Z → list Z → Prop :=
  | greedy_done current : greedy_order current [] []
  | greedy_pick current before x after served :
      nearest_first current before x after →
      greedy_order x (before ++ after) served →
      greedy_order current (before ++ x :: after) (x :: served).

End Engine.

Import Engine.

(** ** The two button handlers, from the parsed request list on *)

Module Handlers.

(** A policy as the handlers call it: [fn(requests, head)]. *)
Definition policy_fn : Type := list Z → Z → outcome (list Z * Z).

(** A Python [dict] with string keys: insertion-ordered, keys distinct. *)
Definition dict (V : Type) : Type := list (string * V).

(** [d[k]] *)
Fixpoint dict_get {V : Type} (d : dict V) (k : string) : outcome V :=
  match d with
  | [] => Raise KeyError
  | (k', v) :: d' => if decide (k' = k) then Ok v else dict_get d' k
  end.

(** [d[k] = v]: replaces in place, or appends a new key. *)
Fixpoint dict_set {V : Type} (d : dict V) (k : string) (v : V) : dict V :=
  match d with
  | [] => [(k, v)]
  | (k', v') :: d' => if decide (k' = k) then (k, v) :: d' else (k', v') :: dict_set d' k v
  end.

(** [list(d.keys())], [list(d.values())] *)
Definition keys {V : Type} (d : dict V) : list string := d.*1.
Definition values {V : Type} (d : dict V) : list V := d.*2.

(** [algorithms = {"FCFS": fcfs, "SSTF": sstf, "SCAN": lambda ..., "C-SCAN": lambda ...}] *)
Definition algorithms (disk_size : Z) : dict policy_fn :=
  [ ("FCFS", fcfs);
    ("SSTF", sstf);
    ("SCAN", λ r h, scan r h disk_size);
    ("C-SCAN", λ r h, c_scan r h disk_size) ].

(** What "Run Simulation" goes on to display. *)
Record simulation : Type := Simulation {
  sim_order : list Z;
  sim_total : Z;
  sim_avg_seek : number;
  sim_throughput : number
}.

(** [len(requests) / total if total != 0 else 0] *)
Definition throughput_of (requests : list Z) (total : Z) : outcome number :=
  if decide (total ≠ 0) then truediv (len requests) total else mret (Int 0).

(** Body of [if st.button("Run Simulation"):] up to the display. *)
Definition run_simulation (algo : string) (requests : list Z) (head disk_size : Z)
    : outcome simulation :=
  selected_algo ← dict_get (algorithms disk_size) algo;
  '(order, total) ← selected_algo requests head;
  avg_seek ← truediv total (len requests);
  throughput ← throughput_of requests total;
  mret (Simulation order total avg_seek throughput).

(** The table "Compare All Algorithms" displays, and the orders it plots. *)
Record comparison : Type := Comparison {
  cmp_algorithm : list string;
  cmp_total : list Z;
  cmp_avg : list number;
  cmp_throughput : list number;
  cmp_orders : dict (list Z)
}.

(** Body of [if st.button("Compare All Algorithms"):] up to the table. *)
Definition compare_all (request_list : list Z) (head disk_size : Z)
    : outcome comparison :=
  '(results, orders) ←
    for_each (algorithms disk_size)
      (λ '(results, orders) '(name, fn),
         '(order, total) ← (fn : policy_fn) request_list head;
         mret (dict_set results name total, dict_set orders name order))
      (([] : dict Z), ([] : dict (list Z)));
  avg ← mapM (λ a, t ← dict_get results a; truediv t (len request_list)) (keys results);
  thr ← mapM (λ a, t ← dict_get results a; throughput_of request_list t) (keys results);
  mret (Comparison (keys results) (values results) avg thr orders).

End Handlers.

Import Handlers.

(** ** The policies over a store of list objects *)

Module Store.

(** A Python variable holding a list holds a reference to a list object;
    the store maps references to the objects' current contents. *)
Abbreviation loc := nat.
Abbreviation store := (gmap nat (list Z)).

(** Computations that read and update the store and may raise. *)
Definition M (A : Type) : Type := store → outcome (A * store).

#[global] Instance M_ret : MRet M := λ A a σ, Ok (a, σ).
#[global] Instance M_bind : MBind M := λ A B f m σ,
  match m σ with
  | Ok (a, σ') => f a σ'
  | Raise e => Raise e
  | OutOfFuel => OutOfFuel
  end.

(** A store-free evaluation inside a store computation. *)
Definition lift {A : Type} (o : outcome A) : M A := λ σ,
  match o with
  | Ok a => Ok (a, σ)
  | Raise e => Raise e
  | OutOfFuel => OutOfFuel
  end.

Definition out_of_fuel {A : Type} : M A := λ _, OutOfFuel.

(** A new list object with contents [l]. *)
Definition alloc (l : list Z) : M loc := λ σ,
  let r := fresh (dom σ) in Ok (r, <[r := l]> σ).

(** Contents of the object at [r]. A reference held by a Python variable
    always designates an object; a dangling one is reported as
    [SystemError]. *)
Definition read (r : loc) : M (list Z) := λ σ,
  match σ !! r with
  | Some l => Ok (l, σ)
  | None => Raise SystemError
  end.

(** In-place update of the object at [r]. *)
Definition write (r : loc) (l : list Z) : M unit := λ σ,
  match σ !! r with
  | Some _ => Ok ((), <[r := l]> σ)
  | None => Raise SystemError
  end.

(** [r.copy()] *)
Definition list_copy (r : loc) : M loc := l ← read r; alloc l.
(** [r1 + r2] *)
Definition list_add (r1 r2 : loc) : M loc := l1 ← read r1; l2 ← read r2; alloc (l1 ++ l2).
(** [r.append(x)] *)
Definition list_append (r : loc) (x : Z) : M unit := l ← read r; write r (l ++ [x]).
(** [r.remove(x)] *)
Definition list_remove (r : loc) (x : Z) : M unit :=
  l ← read r; l' ← lift (remove x l); write r l'.
(** [min(r, key=key)] *)
Definition list_min_key (key : Z → Z) (r : loc) : M Z := l ← read r; lift (min_key key l).
(** [sorted(r)] *)
Definition list_sorted (r : loc) : M loc := l ← read r; alloc (sorted l).
(** [[x for x in r if P x]] *)
Definition list_comp (P : Z → Prop) `{!∀ x, Decision (P x)} (r : loc) : M loc :=
  l ← read r; alloc (filter P l).
(** [r[::-1]] *)
Definition list_reversed (r : loc) : M loc := l ← read r; alloc (reverse l).
(** [len(r)] *)
Definition list_len (r : loc) : M Z := l ← read r; mret (len l).
(** [r[i]] *)
Definition list_index (r : loc) (i : Z) : M Z := l ← read r; lift (index l i).
(** truth value of [r] in [while r:] *)
Definition list_truthy (r : loc) : M bool := l ← read r; mret (bool_decide (l ≠ [])).

(** [sum(abs(order[i] - order[i - 1]) for i in range(1, len(order)))] *)
Definition seek_total (order : loc) : M Z :=
  n ← list_len order;
  terms ← mapM (λ i, a ← list_index order i; b ← list_index order (i - 1);
                     mret (Z.abs (a - b)))
               (range 1 n);
  mret (sum terms).

(** [def fcfs(requests, head)] *)
Definition fcfs (requests : loc) (head : Z) : M (loc * Z) :=
  t ← alloc [head];
  order ← list_add t requests;
  total ← seek_total order;
  mret (order, total).

(** The [while reqs:] loop of [sstf], with a step budget. *)
Fixpoint sstf_loop (fuel : nat) (reqs order : loc) (current : Z) : M unit :=
  more ← list_truthy reqs;
  if (more : bool) then
    match fuel with
    | O => out_of_fuel
    | S fuel' =>
        nearest ← list_min_key (λ x, Z.abs (x - current)) reqs;
        _ ← list_append order nearest;
        _ ← list_remove reqs nearest;
        sstf_loop fuel' reqs order nearest
    end
  else mret ().

(** [def sstf(requests, head)], run with a budget of [fuel] iterations. *)
Definition sstf_within (fuel : nat) (requests : loc) (head : Z) : M (loc * Z) :=
  reqs ← list_copy requests;
  order ← alloc [head];
  _ ← sstf_loop fuel reqs order head;
  total ← seek_total order;
  mret (order, total).

(** The budget is one iteration per request, as at the value level. *)
Definition sstf (requests : loc) (head : Z) : M (loc * Z) :=
  l ← read requests; sstf_within (length l) requests head.

(** [def scan(requests, head, disk_size=200)] *)
Definition scan (requests : loc) (head disk_size : Z) : M (loc * Z) :=
  t ← list_comp (λ r, r < head) requests;
  left ← list_sorted t;
  t ← list_comp (λ r, r >= head) requests;
  right ← list_sorted t;
  t ← alloc [head];
  t ← list_add t right;
  b ← alloc [disk_size - 1];
  t ← list_add t b;
  rl ← list_reversed left;
  order ← list_add t rl;
  total ← seek_total order;
  mret (order, total).

(** [def c_scan(requests, head, disk_size=200)] *)
Definition c_scan (requests : loc) (head disk_size : Z) : M (loc * Z) :=
  t ← list_comp (λ r, r < head) requests;
  left ← list_sorted t;
  t ← list_comp (λ r, r >= head) requests;
  right ← list_sorted t;
  t ← alloc [head];
  t ← list_add t right;
  b ← alloc [disk_size - 1; 0];
  t ← list_add t b;
  order ← list_add t left;
  let total := 0 in
  n ← list_len order;
  total ← for_each (range 1 n)
             (λ total i, a ← list_index order i; b ← list_index order (i - 1);
                         mret (total + Z.abs (a - b)))
             total;
  mret (order, total).

(** [m], started in [σ], returns normally with a value and final store
    satisfying [Q]. *)
Definition returns {A : Type} (m : M A) (σ : store) (Q : A → store → Prop) : Prop :=
  ∃ a σ', m σ = Ok (a, σ') ∧ Q a σ'.

(** A policy called with the reference [requests] in store [σ] computes
    what [pure] computes from the list contents, returns its order as a
    list object, and leaves the caller's list, and every other object that
    existed before the call, with the contents it had. *)
Definition leaves_caller_list_intact
    (policy : M (loc * Z)) (requests : loc) (σ : store)
    (pure : outcome (list Z * Z)) : Prop :=
  ∃ order total σ' visit_order,
    policy σ = Ok ((order, total), σ')
    ∧ σ' !! requests = σ !! requests
    ∧ σ ⊆ σ'
    ∧ σ' !! order = Some visit_order
    ∧ pure = Ok (visit_order, total).

End Store.


(** ** Request text and animation *)

Module Text.

(** Python text as a UTF-8 byte string: the separators used here ([,] and
    the space) are single bytes that occur inside no multi-byte character,
    so splitting and deleting bytes is splitting and deleting characters. *)

(** [s.split(sep)] for a one-character separator: the pieces between
    consecutive separators, empty pieces included. *)
Fixpoint split (sep : Ascii.ascii) (s : string) : list string :=
  match s with
  | EmptyString => [EmptyString]
  | String c s' =>
      if decide (c = sep) then EmptyString :: split sep s'
      else match split sep s' with
           | piece :: pieces => String c piece :: pieces
           | [] => [String c EmptyString]
           end
  end.

(** [s.replace(c, "")] for a one-character [c]. *)
Fixpoint delete_all (c : Ascii.ascii) (s : string) : string :=
  match s with
  | EmptyString => EmptyString
  | String c' s' =>
      if decide (c' = c) then delete_all c s' else String c' (delete_all c s')
  end.

(** Number of occurrences of [c] in [s]. *)
Fixpoint occurrences (c : Ascii.ascii) (s : string) : nat :=
  match s with
  | EmptyString => 0
  | String c' s' => (if decide (c' = c) then 1 else 0) + occurrences c s'
  end.

End Text.

Module Ui.

(** One [go.Scatter(x=..., y=..., mode=..., text=..., textposition=...)]. *)
Record scatter : Type := Scatter {
  sc_x : list Z;
  sc_y : list Z;
  sc_mode : string;
  sc_text : list Z;
  sc_textposition : string
}.

(** What the modelled code sends to the page, in order. A chart event
    carries the traces the figure holds when it is drawn. *)
Inductive event : Type :=
  | StWrite (text : string)
  | StError (text : string)
  | StPlotlyChart (fig : list scatter)
  | Sleep (seconds : Qc).

(** [def animate(order, speed)] *)
Definition animate (order : list Z) (speed : Qc) : outcome (list event) :=
  let events := [StWrite "### 🎬 Disk Head Animation"] in
  let fig := [] in
  '(fig, events) ←
    for_each (range 1 (len order))
      (λ '(fig, events) i,
         x0 ← index order (i - 1); x1 ← index order i;
         t0 ← index order (i - 1); t1 ← index order i;
         let fig := fig ++ [Scatter [x0; x1] [0; 0] "lines+markers+text"
                                    [t0; t1] "top center"] in
         mret (fig, events ++ [StPlotlyChart fig; Sleep (Q2Qc (6 # 10))]))
      ((fig : list scatter), events);
  mret events.

(** The moves of a visit order: its consecutive pairs. *)
Fixpoint moves (order : list Z) : list (Z * Z) :=
  match order with
  | a :: (b :: _) as rest => (a, b) :: moves rest
  | _ => []
  end.

(** The trace [animate] draws for a move. *)
Definition trace_of (move : Z * Z) : scatter :=
  Scatter [move.1; move.2] [0; 0] "lines+markers+text" [move.1; move.2] "top center".

(** The frames that animate [traces] on top of the traces already
    [shown]: the k-th chart adds the first k of them, and each chart is
    followed by the pause. *)
Definition frames_after (shown traces : list scatter) : list event :=
  concat ((λ k, [StPlotlyChart (shown ++ take k traces); Sleep (Q2Qc (6 # 10))])
          <$> seq 1 (length traces)).

Section with_int.

(** [int(s)] on text: the integer denoted, or [None] where the builtin
    raises [ValueError]. The literal syntax the builtin accepts is not part
    of this program, so it is a parameter. *)
Context (int_of : string → option Z).

Definition int (s : string) : outcome Z :=
  match int_of s with
  | Some z => Ok z
  | None => Raise ValueError
  end.

(** [def parse_requests(req_str)]: the parsed list, or [None] after
    reporting an error; the bare [except] catches whatever [int] raises. *)
Definition parse_requests (req_str : string) : option (list Z) * list event :=
  match mapM int (Text.split ","%char (Text.delete_all " "%char req_str)) with
  | Ok req_list => (Some req_list, [])
  | Raise _ | OutOfFuel =>
      (None, [StError "❌ Invalid input! Enter numbers separated by commas."])
  end.

(** [if st.button("Run Simulation"):] from the request text to the metrics
    and the animation (the four formatted lines shown in between are not
    modelled). *)
Definition run_simulation_click
    (req_str algo : string) (head disk_size : Z) (speed : Qc)
    : outcome (simulation * list event) :=
  requests ← mapM int (Text.split ","%char req_str);
  sim ← run_simulation algo requests head disk_size;
  events ← animate (sim_order sim) speed;
  mret (sim, events).

(** [if st.button("Compare All Algorithms"):] from the request text to the
    table. *)
Definition compare_click (req_str : string) (head disk_size : Z)
    : outcome comparison :=
  request_list ← mapM int (Text.split ","%char req_str);
  compare_all request_list head disk_size.

End with_int.

End Ui.

(** ** The comparison loop over the store *)

Module Sharing.
Import Store.

(** [algorithms], each entry taking a reference to the request list. *)
Definition algorithms (disk_size : Z) : dict (loc → Z → M (loc * Z)) :=
  [ ("FCFS", Store.fcfs);
    ("SSTF", Store.sstf);
    ("SCAN", λ r h, Store.scan r h disk_size);
    ("C-SCAN", λ r h, Store.c_scan r h disk_size) ].

(** [for name, fn in algorithms.items(): ...]: every policy is handed the
    same list object; [orders] keeps the references returned. *)
Definition compare_loop (request_list : loc) (head disk_size : Z)
    : M (dict Z * dict loc) :=
  for_each (algorithms disk_size)
    (λ '(results, orders) '(name, fn),
       '(order, total) ← (fn : loc → Z → M (loc * Z)) request_list head;
       mret (dict_set results name total, dict_set orders name order))
    (([] : dict Z), ([] : dict loc)).

End Sharing.

(** * Properties *)

(** ** The scenario of the specification *)

Example fcfs_scenario :
  fcfs [82; 170; 43; 140; 24; 16; 190] 50
  = Ok ([50; 82; 170; 43; 140; 24; 16; 190], 642).
Proof. vm_compute. reflexivity. Qed.

Example sstf_scenario :
  sstf [82; 170; 43; 140; 24; 16; 190] 50
  = Ok ([50; 43; 24; 16; 82; 140; 170; 190], 208).
Proof. vm_compute. reflexivity. Qed.

Example scan_scenario :
  scan [82; 170; 43; 140; 24; 16; 190] 50 200
  = Ok ([50; 82; 140; 170; 190; 199; 43; 24; 16], 332).
Proof. vm_compute. reflexivity. Qed.

Example c_scan_scenario :
  c_scan [82; 170; 43; 140; 24; 16; 190] 50 200
  = Ok ([50; 82; 140; 170; 190; 199; 0; 16; 24; 43], 391).
Proof. vm_compute. reflexivity. Qed.

(** The boundary stop of SCAN when a request already sits on it, and when
    no request lies at or above the head. *)
Example scan_boundary_coincides :
  scan [199; 60] 50 200 = Ok ([50; 60; 199; 199], 149).
Proof. vm_compute. reflexivity. Qed.

Example scan_right_empty :
  scan [10; 30] 50 200 = Ok ([50; 199; 30; 10], 338).
Proof. vm_compute. reflexivity. Qed.

(** SSTF under ties: [3] and [7] are both at distance 2 from [5]; the one
    met first in the remaining list is served. *)
Example sstf_tie_takes_first :
  sstf [7; 3; 5; 3; 7] 5 = Ok ([5; 5; 7; 7; 3; 3], 6)
  ∧ sstf [3; 7; 5; 3; 7] 5 = Ok ([5; 5; 3; 3; 7; 7], 6).
Proof. split; vm_compute; reflexivity. Qed.

(** In the store, SSTF empties its own copy (reference 1) and leaves the
    caller's list (reference 0) as it was. *)
Example store_sstf_scenario :
  (res ← Store.sstf 0%nat 50 {[ 0%nat := [82; 170; 43; 140; 24; 16; 190] ]};
   mret (res.1, map_to_list res.2))
  = Ok ((2%nat, 208),
        [(2%nat, [50; 43; 24; 16; 82; 140; 170; 190]);
         (1%nat, []);
         (0%nat, [82; 170; 43; 140; 24; 16; 190])]).
Proof. vm_compute. reflexivity. Qed.

(** Evaluates a division and compares the double obtained by its value. *)
Ltac same_double :=
  vm_compute;
  first [ reflexivity
        | apply (f_equal Ok), (f_equal Float), Qc_is_canon; reflexivity ].

(** True division rounds to the nearest double, ties to even, and fails
    beyond the double range. *)
Example truediv_rounds :
  truediv 1 3 = Ok (Float (Q2Qc (6004799503160661 # 18014398509481984)))
  ∧ truediv 642 7 = Ok (Float (Q2Qc (6453819108865755 # 70368744177664)))
  ∧ truediv (2 ^ 53 + 1) 1 = Ok (Float (Qc_of_Z (2 ^ 53)))
  ∧ truediv (2 ^ 53 + 3) 1 = Ok (Float (Qc_of_Z (2 ^ 53 + 4)))
  ∧ truediv 1 (2 ^ 1075) = Ok (Float 0%Qc).
Proof. split_and!; same_double. Qed.

Example truediv_range :
  truediv (2 ^ 1024 - 2 ^ 970 - 1) 1 = Ok (Float (Qc_of_Z (2 ^ 1024 - 2 ^ 971)))
  ∧ truediv (2 ^ 1024 - 2 ^ 970) 1 = Raise OverflowError
  ∧ truediv (10 ^ 400 - 50) 1 = Raise OverflowError
  ∧ truediv 5 0 = Raise ZeroDivisionError.
Proof. split_and!; same_double. Qed.

(** ** Builtins *)

Section builtins.
Implicit Types (l order pre rest : list Z) (i a b : Z).

Lemma len_app l1 l2 : len (l1 ++ l2) = len l1 + len l2.
Proof. unfold len. rewrite length_app. lia. Qed.

Lemma len_cons a l : len (a :: l) = 1 + len l.
Proof. unfold len. cbn [length]. lia. Qed.

Lemma len_nonneg l : 0 ≤ len l.
Proof. unfold len. lia. Qed.

(** Indexing just past a prefix. *)
Lemma index_middle pre a rest : index (pre ++ a :: rest) (len pre) = Ok a.
Proof.
  unfold index. pose proof (len_nonneg pre).
  destruct (decide (len pre < 0)) as [?|_]; [lia|].
  rewrite decide_False by lia.
  unfold len. rewrite Nat2Z.id, list_lookup_middle by done. done.
Qed.

Lemma sum_from acc (xs : list Z) : foldl Z.add acc xs = acc + sum xs.
Proof.
  unfold sum. revert acc. induction xs as [|x xs IH]; intros acc; cbn [foldl].
  - lia.
  - rewrite IH, (IH (0 + x)). lia.
Qed.

Lemma sum_cons x (xs : list Z) : sum (x :: xs) = x + sum xs.
Proof. unfold sum at 1. cbn [foldl]. rewrite sum_from. lia. Qed.

Lemma range_cons a b : a < b → range a b = a :: range (a + 1) b.
Proof.
  intros. unfold range. rewrite seqZ_cons by lia.
  f_equal. f_equal; lia.
Qed.

Lemma range_nil a b : b ≤ a → range a b = [].
Proof. intros. unfold range. apply seqZ_nil. lia. Qed.

Lemma sorted_perm l : sorted l ≡ₚ l.
Proof. apply merge_sort_Permutation. Qed.

Lemma sorted_ascending l : StronglySorted Z.le (sorted l).
Proof. apply (StronglySorted_merge_sort Z.le). Qed.

(** Reading an ascending list backwards gives a descending one. *)
Lemma reverse_descending l : StronglySorted Z.le l → StronglySorted Z.ge (reverse l).
Proof.
  induction 1 as [|x l Hl IH Hx]; [constructor|].
  rewrite reverse_cons. apply StronglySorted_app_2; [|done|repeat constructor].
  intros y z Hy Hz. apply list_elem_of_singleton in Hz as ->.
  rewrite elem_of_reverse in Hy. rewrite Forall_forall in Hx.
  apply Z.le_ge, Hx. done.
Qed.

End builtins.

(** ** Seek cost: the index loops of the source compute [SeekCost] *)

Section seek_cost.
Implicit Types (l order pre rest : list Z) (i a b : Z).

(** One term of the source's sum, at the position just past [pre ++ [a]]. *)
Lemma seek_term pre a b rest :
  let order := pre ++ a :: b :: rest in
  let i := len pre + 1 in
  (x ← index order i; y ← index order (i - 1); mret (Z.abs (x - y)))
  = Ok (Z.abs (b - a)).
Proof.
  cbn zeta. replace (len pre + 1 - 1) with (len pre) by lia.
  rewrite index_middle.
  replace (len pre + 1) with (len (pre ++ [a])) by (rewrite len_app, len_cons; done).
  rewrite (cons_middle a pre), app_assoc, index_middle. done.
Qed.

Lemma seek_terms_from pre a rest :
  ∃ terms,
    mapM (λ i, x ← index (pre ++ a :: rest) i;
               y ← index (pre ++ a :: rest) (i - 1); mret (Z.abs (x - y)))
         (range (len pre + 1) (len (pre ++ a :: rest))) = Ok terms
    ∧ sum terms = SeekCost (a :: rest).
Proof.
  revert pre a. induction rest as [|b rest IH]; intros pre a.
  - rewrite range_nil by (rewrite len_app, len_cons; unfold len; cbn; lia).
    by exists [].
  - rewrite range_cons
      by (rewrite len_app, !len_cons; pose proof (len_nonneg rest); lia).
    destruct (IH (pre ++ [a]) b) as (terms & Hterms & Hsum).
    rewrite <-(assoc_L (++)) in Hterms. cbn [app] in Hterms.
    rewrite len_app, len_cons in Hterms. change (len []) with 0 in Hterms.
    replace (len pre + (1 + 0) + 1) with (len pre + 1 + 1) in Hterms by lia.
    exists (Z.abs (b - a) :: terms). split.
    + cbn [mapM]. rewrite (seek_term pre a b rest). cbn [mbind outcome_bind].
      rewrite Hterms. done.
    + rewrite sum_cons, Hsum. done.
Qed.

Lemma seek_total_correct order : seek_total order = Ok (SeekCost order).
Proof.
  unfold seek_total. destruct order as [|a rest].
  - done.
  - destruct (seek_terms_from [] a rest) as (terms & Hterms & Hsum).
    cbn [app] in Hterms. change (len [] + 1) with 1 in Hterms.
    rewrite Hterms. cbn. by rewrite Hsum.
Qed.

(** The accumulating [for] loop of [c_scan]. *)
Lemma seek_loop_from pre a rest total :
  for_each (range (len pre + 1) (len (pre ++ a :: rest)))
    (λ total i, x ← index (pre ++ a :: rest) i;
                y ← index (pre ++ a :: rest) (i - 1);
                mret (total + Z.abs (x - y)))
    total
  = Ok (total + SeekCost (a :: rest)).
Proof.
  revert pre a total. induction rest as [|b rest IH]; intros pre a total.
  - rewrite range_nil by (rewrite len_app, len_cons; unfold len; cbn; lia).
    cbn. f_equal. lia.
  - rewrite range_cons
      by (rewrite len_app, !len_cons; pose proof (len_nonneg rest); lia).
    cbn [for_each].
    pose proof (seek_term pre a b rest) as Hterm. cbn zeta in Hterm.
    replace (len pre + 1 - 1) with (len pre) in * by lia.
    destruct (index (pre ++ a :: b :: rest) (len pre + 1)) as [x| |]; try done.
    destruct (index (pre ++ a :: b :: rest) (len pre)) as [y| |]; try done.
    cbn in Hterm. injection Hterm as Hterm. cbn [mbind outcome_bind mret outcome_ret].
    specialize (IH (pre ++ [a]) b (total + Z.abs (x - y))).
    rewrite <-(assoc_L (++)) in IH. cbn [app] in IH.
    rewrite len_app, len_cons in IH. change (len []) with 0 in IH.
    replace (len pre + (1 + 0) + 1) with (len pre + 1 + 1) in IH by lia.
    rewrite IH, Hterm. f_equal. cbn [SeekCost]. lia.
Qed.

Lemma seek_loop_correct order :
  for_each (range 1 (len order))
    (λ total i, x ← index order i; y ← index order (i - 1);
                mret (total + Z.abs (x - y)))
    0
  = Ok (SeekCost order).
Proof.
  destruct order as [|a rest]; [done|].
  apply (seek_loop_from [] a rest 0).
Qed.

Lemma SeekCost_nonneg order : 0 ≤ SeekCost order.
Proof.
  induction order as [|a [|b rest] IH]; cbn [SeekCost] in *; lia.
Qed.

End seek_cost.

(** ** [min] with a key and [list.remove] *)

Section selection.
Context (key : Z → Z).
Implicit Types (l xs before after : list Z) (x y m best : Z).

Let pick (best y : Z) : Z := if decide (key y < key best) then y else best.

Lemma pick_scan xs : ∀ pre best post,
  Forall (λ y, key best < key y) pre →
  Forall (λ y, key best ≤ key y) post →
  ∃ before m after,
    pre ++ best :: post ++ xs = before ++ m :: after
    ∧ foldl pick best xs = m
    ∧ Forall (λ y, key m < key y) before
    ∧ Forall (λ y, key m ≤ key y) after.
Proof.
  induction xs as [|y xs IH]; intros pre best post Hpre Hpost.
  - exists pre, best, post. by rewrite app_nil_r.
  - cbn [foldl]. unfold pick at 2. destruct (decide (key y < key best)) as [Hlt|Hge].
    + destruct (IH (pre ++ best :: post) y []) as (before & m & after & Heq & Hm & Hb & Ha).
      * rewrite Forall_app, Forall_cons. split_and!; [|done|].
        -- eapply Forall_impl; [exact Hpre|]. cbn. intros; lia.
        -- eapply Forall_impl; [exact Hpost|]. cbn. intros; lia.
      * constructor.
      * exists before, m, after. split_and!; try done.
        rewrite <-Heq. by rewrite <-(assoc_L (++)).
    + destruct (IH pre best (post ++ [y])) as (before & m & after & Heq & Hm & Hb & Ha).
      * done.
      * rewrite Forall_app, Forall_singleton. split; [done|lia].
      * exists before, m, after. split_and!; try done.
        rewrite <-Heq. by rewrite <-(assoc_L (++)).
Qed.

(** On a non-empty list [min] returns the first element of minimal key. *)
Lemma min_key_first x xs :
  ∃ before m after,
    x :: xs = before ++ m :: after
    ∧ min_key key (x :: xs) = Ok m
    ∧ Forall (λ y, key m < key y) before
    ∧ Forall (λ y, key m ≤ key y) after.
Proof.
  destruct (pick_scan xs [] x []) as (before & m & after & Heq & Hm & Hb & Ha);
    [constructor..|].
  exists before, m, after. split_and!; try done.
  cbn [min_key]. f_equal. exact Hm.
Qed.

End selection.

Lemma remove_first (m : Z) (before after : list Z) :
  Forall (λ y, y ≠ m) before →
  remove m (before ++ m :: after) = Ok (before ++ after).
Proof.
  induction 1 as [|y before Hy _ IH]; cbn [app remove].
  - by rewrite decide_True.
  - rewrite decide_False by done. rewrite IH. done.
Qed.

(** ** SSTF *)

Section sstf_facts.
Implicit Types (reqs order served : list Z) (current head : Z) (fuel : nat).

Lemma greedy_order_perm current reqs served :
  greedy_order current reqs served → served ≡ₚ reqs.
Proof.
  induction 1 as [|current before x after served _ _ IH]; [done|].
  rewrite IH. apply Permutation_middle.
Qed.

(** With one unit of budget per remaining request the loop ends normally,
    having appended a greedy service order. *)
Lemma sstf_loop_greedy fuel : ∀ reqs order current,
  (length reqs ≤ fuel)%nat →
  ∃ served,
    sstf_loop fuel reqs order current = Ok (order ++ served)
    ∧ greedy_order current reqs served.
Proof.
  induction fuel as [|fuel IH]; intros reqs order current Hfuel.
  - destruct reqs; [|cbn in Hfuel; lia].
    exists []. rewrite app_nil_r. split; [done|constructor].
  - destruct reqs as [|r reqs].
    { exists []. rewrite app_nil_r. split; [done|constructor]. }
    destruct (min_key_first (λ x, Z.abs (x - current)) r reqs)
      as (before & m & after & Heq & Hmin & Hb & Ha).
    destruct (IH (before ++ after) (order ++ [m]) m) as (served & Hloop & Hgreedy).
    { apply (f_equal length) in Heq. rewrite length_app in *. cbn in *. lia. }
    exists (m :: served). split.
    + cbn [sstf_loop]. rewrite Hmin. cbn [mbind outcome_bind].
      rewrite Heq, remove_first.
      * cbn [mbind outcome_bind]. rewrite Hloop.
        by rewrite <-(assoc_L (++)).
      * eapply Forall_impl; [exact Hb|]. cbn. intros y Hy ->. lia.
    + rewrite Heq. by constructor.
Qed.

(** A larger budget does not change a normal result. *)
Lemma sstf_loop_more_fuel fuel : ∀ fuel' reqs order current result,
  (fuel ≤ fuel')%nat →
  sstf_loop fuel reqs order current = Ok result →
  sstf_loop fuel' reqs order current = Ok result.
Proof.
  induction fuel as [|fuel IH]; intros fuel' reqs order current result Hle Hrun.
  - destruct reqs; [|done]. by destruct fuel'.
  - destruct fuel' as [|fuel']; [lia|].
    destruct reqs as [|r reqs]; [done|].
    cbn [sstf_loop] in *.
    destruct (min_key _ (r :: reqs)) as [m| |]; try done.
    cbn [mbind outcome_bind] in *.
    destruct (remove m (r :: reqs)) as [reqs'| |]; try done.
    cbn [mbind outcome_bind] in *.
    apply IH; [lia|done].
Qed.

Lemma sstf_greedy requests head :
  ∃ served,
    sstf requests head = Ok (head :: served, SeekCost (head :: served))
    ∧ greedy_order head requests served.
Proof.
  destruct (sstf_loop_greedy (length requests) requests [head] head)
    as (served & Hloop & Hgreedy); [done|].
  exists served. split; [|done].
  unfold sstf, sstf_within. rewrite Hloop. cbn [mbind outcome_bind].
  rewrite seek_total_correct. done.
Qed.

(** The budget [sstf] runs with is not a restriction. *)
Lemma sstf_within_enough fuel requests head :
  (length requests ≤ fuel)%nat →
  sstf_within fuel requests head = sstf requests head.
Proof.
  intros Hle.
  destruct (sstf_loop_greedy (length requests) requests [head] head)
    as (served & Hloop & _); [done|].
  unfold sstf, sstf_within.
  rewrite (sstf_loop_more_fuel _ fuel _ _ _ _ Hle Hloop), Hloop. done.
Qed.

End sstf_facts.

(** ** SCAN and C-SCAN *)

Section sweeps.
Implicit Types (requests order : list Z) (head disk_size : Z).

Lemma partition_perm requests head :
  filter (λ r, r >= head) requests ++ filter (λ r, r < head) requests ≡ₚ requests.
Proof.
  induction requests as [|r requests IH]; [done|].
  rewrite !filter_cons.
  destruct (decide (r >= head)), (decide (r < head)); try lia.
  - cbn [app]. by rewrite IH.
  - rewrite <-Permutation_middle. by rewrite IH.
Qed.

Lemma scan_order requests head disk_size :
  let order := [head] ++ sorted (filter (λ r, r >= head) requests)
               ++ [disk_size - 1]
               ++ reverse (sorted (filter (λ r, r < head) requests)) in
  scan requests head disk_size = Ok (order, SeekCost order).
Proof. cbn zeta. unfold scan. by rewrite seek_total_correct. Qed.

Lemma c_scan_order requests head disk_size :
  let order := [head] ++ sorted (filter (λ r, r >= head) requests)
               ++ [disk_size - 1; 0]
               ++ sorted (filter (λ r, r < head) requests) in
  c_scan requests head disk_size = Ok (order, SeekCost order).
Proof. cbn zeta. unfold c_scan. by rewrite seek_loop_correct. Qed.

Lemma fcfs_order requests head :
  fcfs requests head = Ok (head :: requests, SeekCost (head :: requests)).
Proof. unfold fcfs. by rewrite seek_total_correct. Qed.

End sweeps.

(** ** The claims about the four policies *)

(** C1, as stated, fails: SCAN's order is two longer than the request list
    (it contains the boundary stop), so the invariant
    [len(VisitOrder) == len(requests) + 1] does not hold for it. *)
Lemma C1_scan_order_has_boundary_stop :
  ¬ visits_requests_only [82] (scan [82] 50 200)
  ∧ ¬ visits_requests_only [82] (c_scan [82] 50 200).
Proof.
  split; intros (order & total & Hrun & Hlen & _);
    vm_compute in Hrun; injection Hrun as <- <-; discriminate Hlen.
Qed.

(** C1 (amended): FCFS and SSTF return an order of length
    [len(requests) + 1] whose elements after the head are a rearrangement
    of the requests. SCAN returns an order of length [len(requests) + 2]
    whose elements after the head are the requests together with one
    [disk_size - 1]; C-SCAN an order of length [len(requests) + 3] whose
    elements after the head are the requests together with one
    [disk_size - 1] and one [0]. No request is dropped or duplicated. *)
Theorem C1_visit_order_contents (requests : list Z) (head disk_size : Z) :
  visits_requests_only requests (fcfs requests head)
  ∧ visits_requests_only requests (sstf requests head)
  ∧ (∃ order total,
       scan requests head disk_size = Ok (order, total)
       ∧ length order = S (S (length requests))
       ∧ tail order ≡ₚ (disk_size - 1) :: requests)
  ∧ (∃ order total,
       c_scan requests head disk_size = Ok (order, total)
       ∧ length order = S (S (S (length requests)))
       ∧ tail order ≡ₚ (disk_size - 1) :: 0 :: requests).
Proof.
  split_and!.
  - eexists _, _. split; [apply fcfs_order|]. done.
  - destruct (sstf_greedy requests head) as (served & Hrun & Hgreedy).
    apply greedy_order_perm in Hgreedy.
    eexists _, _. split; [exact Hrun|]. cbn [length tail].
    split; [by rewrite Hgreedy|done].
  - eexists _, _. split; [apply scan_order|].
    assert (sorted (filter (λ r, r >= head) requests) ++ [disk_size - 1]
            ++ reverse (sorted (filter (λ r, r < head) requests))
            ≡ₚ (disk_size - 1) :: requests) as Hperm.
    { cbn [app]. rewrite <-Permutation_middle, reverse_Permutation, !sorted_perm.
      by rewrite partition_perm. }
    cbn [app tail length]. split; [|exact Hperm].
    rewrite Hperm. done.
  - eexists _, _. split; [apply c_scan_order|].
    assert (sorted (filter (λ r, r >= head) requests) ++ [disk_size - 1; 0]
            ++ sorted (filter (λ r, r < head) requests)
            ≡ₚ (disk_size - 1) :: 0 :: requests) as Hperm.
    { cbn [app]. rewrite <-!Permutation_middle, !sorted_perm.
      by rewrite partition_perm. }
    cbn [app tail length]. split; [|exact Hperm].
    rewrite Hperm. done.
Qed.

(** C2, as stated, fails: on an empty request list SCAN and C-SCAN still
    visit the boundary, so their order is not [[head]] and their cost is
    not [0]. *)
Lemma C2_empty_sweeps_still_move :
  scan [] 50 200 ≠ Ok ([50], 0) ∧ c_scan [] 50 200 ≠ Ok ([50], 0).
Proof. split; vm_compute; discriminate. Qed.

(** C2 (amended): with an empty request list FCFS and SSTF return
    [[head]] and cost 0; SCAN returns [[head, disk_size - 1]] with cost
    [|disk_size - 1 - head|]; C-SCAN returns [[head, disk_size - 1, 0]]
    with cost [|disk_size - 1 - head| + |disk_size - 1|]. *)
Theorem C2_empty_requests (head disk_size : Z) :
  fcfs [] head = Ok ([head], 0)
  ∧ sstf [] head = Ok ([head], 0)
  ∧ scan [] head disk_size
    = Ok ([head; disk_size - 1], Z.abs (disk_size - 1 - head))
  ∧ c_scan [] head disk_size
    = Ok ([head; disk_size - 1; 0],
          Z.abs (disk_size - 1 - head) + Z.abs (disk_size - 1)).
Proof.
  split_and!.
  - apply fcfs_order.
  - destruct (sstf_greedy [] head) as (served & Hrun & Hgreedy).
    inversion Hgreedy as [|? before ? ? ? ? ? Heq]; subst; [exact Hrun|].
    by destruct before.
  - rewrite scan_order. cbn. do 2 f_equal. lia.
  - rewrite c_scan_order. cbn. do 2 f_equal. lia.
Qed.

(** C3: SCAN returns [[head]], then the requests [>= head] in ascending
    order, then [disk_size - 1] (always, whatever the requests), then the
    requests [< head] in descending order; its cost is the sum of the
    consecutive absolute differences of that order. *)
Theorem C3_scan_visit_order (requests : list Z) (head disk_size : Z) :
  ∃ right left_desc,
    let order := [head] ++ right ++ [disk_size - 1] ++ left_desc in
    scan requests head disk_size = Ok (order, SeekCost order)
    ∧ right ≡ₚ filter (λ r, r >= head) requests
    ∧ StronglySorted Z.le right
    ∧ left_desc ≡ₚ filter (λ r, r < head) requests
    ∧ StronglySorted Z.ge left_desc.
Proof.
  exists (sorted (filter (λ r, r >= head) requests)),
         (reverse (sorted (filter (λ r, r < head) requests))).
  cbn zeta. split_and!.
  - apply scan_order.
  - apply sorted_perm.
  - apply sorted_ascending.
  - by rewrite reverse_Permutation, sorted_perm.
  - apply reverse_descending, sorted_ascending.
Qed.

(** C4: C-SCAN returns [[head]], then the requests [>= head] in ascending
    order, then [disk_size - 1] and [0], then the requests [< head] in
    ascending order; its cost is the sum of the consecutive absolute
    differences of that order. *)
Theorem C4_c_scan_visit_order (requests : list Z) (head disk_size : Z) :
  ∃ right left,
    let order := [head] ++ right ++ [disk_size - 1; 0] ++ left in
    c_scan requests head disk_size = Ok (order, SeekCost order)
    ∧ right ≡ₚ filter (λ r, r >= head) requests
    ∧ StronglySorted Z.le right
    ∧ left ≡ₚ filter (λ r, r < head) requests
    ∧ StronglySorted Z.le left.
Proof.
  exists (sorted (filter (λ r, r >= head) requests)),
         (sorted (filter (λ r, r < head) requests)).
  cbn zeta. split_and!.
  - apply c_scan_order.
  - apply sorted_perm.
  - apply sorted_ascending.
  - apply sorted_perm.
  - apply sorted_ascending.
Qed.

(** C5: SSTF's order is [head] followed by the greedy service order: at
    each step the request served is, among those remaining, at minimal
    distance from the current position and the first such in the remaining
    list; it is removed and becomes the current position. Every request is
    served exactly once. *)
Theorem C5_sstf_greedy_order (requests : list Z) (head : Z) :
  ∃ served,
    sstf requests head = Ok (head :: served, SeekCost (head :: served))
    ∧ greedy_order head requests served
    ∧ served ≡ₚ requests.
Proof.
  destruct (sstf_greedy requests head) as (served & Hrun & Hgreedy).
  exists served. split_and!; [done..|]. by eapply greedy_order_perm.
Qed.

(** C6: FCFS returns [[head] + requests] in input order, so
    [VisitOrder[1:] == requests], and its cost is the sum of the
    consecutive absolute differences of that order. *)
Theorem C6_fcfs_order_preserving (requests : list Z) (head : Z) :
  ∃ order,
    fcfs requests head = Ok (order, SeekCost order)
    ∧ order = [head] ++ requests
    ∧ drop 1 order = requests.
Proof. exists (head :: requests). split; [apply fcfs_order|done]. Qed.

(** ** The handlers' metrics *)

Section metrics.
Implicit Types (requests order : list Z) (head disk_size total : Z) (algo : string).

Lemma double_overflow_large : 2 ^ 64 ≤ double_overflow.
Proof. apply Z.leb_le. vm_compute. reflexivity. Qed.

(** True division by a non-zero int: too large for a float, or the
    nearest double. *)
Lemma truediv_cases a b :
  b ≠ 0 →
  (double_overflow * Z.abs b ≤ Z.abs a ∧ truediv a b = Raise OverflowError)
  ∨ (Z.abs a < double_overflow * Z.abs b
     ∧ truediv a b = Ok (Float (nearest_double a b))).
Proof.
  intros Hb. unfold truediv. destruct (decide (b = 0)) as [?|_]; [done|].
  case_decide; [left|right]; (split; [lia|done]).
Qed.

Lemma truediv_by_zero a : truediv a 0 = Raise ZeroDivisionError.
Proof. done. Qed.

Lemma truediv_of_zero b : b ≠ 0 → truediv 0 b = Ok (Float 0%Qc).
Proof.
  intros Hb. pose proof double_overflow_large.
  destruct (truediv_cases 0 b Hb) as [[Hover _]|[_ ->]]; [lia|done].
Qed.

Lemma throughput_of_zero requests : throughput_of requests 0 = Ok (Int 0).
Proof. done. Qed.

Lemma throughput_of_nonzero requests total :
  total ≠ 0 → throughput_of requests total = truediv (len requests) total.
Proof. intros. unfold throughput_of. by rewrite decide_True. Qed.

(** The throughput expression never divides by zero. *)
Lemma throughput_of_cases requests total :
  (∃ v, throughput_of requests total = Ok v)
  ∨ throughput_of requests total = Raise OverflowError.
Proof.
  destruct (decide (total = 0)) as [->|Hne]; [left; by eexists|].
  rewrite throughput_of_nonzero by done.
  destruct (truediv_cases (len requests) total Hne) as [[_ ->]|[_ ->]];
    [by right|left; by eexists].
Qed.

Lemma nonempty_len requests : requests ≠ [] → len requests ≠ 0.
Proof.
  destruct requests; [done|]. intros _. rewrite len_cons.
  pose proof (len_nonneg requests). lia.
Qed.

Lemma average_cases requests total :
  requests ≠ [] →
  (∃ v, truediv total (len requests) = Ok v)
  ∨ truediv total (len requests) = Raise OverflowError.
Proof.
  intros Hne%nonempty_len.
  destruct (truediv_cases total (len requests) Hne) as [[_ ->]|[_ ->]];
    [by right|left; by eexists].
Qed.

(** Each entry of [algorithms] is one of the four policies and returns
    normally. *)
Lemma algorithms_get disk_size algo fn :
  dict_get (algorithms disk_size) algo = Ok fn →
  (algo = "FCFS" ∧ fn = fcfs)
  ∨ (algo = "SSTF" ∧ fn = sstf)
  ∨ (algo = "SCAN" ∧ fn = λ r h, scan r h disk_size)
  ∨ (algo = "C-SCAN" ∧ fn = λ r h, c_scan r h disk_size).
Proof.
  unfold algorithms. cbn [dict_get]. intros Hget.
  repeat (case_decide; [simplify_eq; tauto|]). done.
Qed.

Lemma algorithms_return disk_size algo fn requests head :
  dict_get (algorithms disk_size) algo = Ok fn →
  ∃ order, fn requests head = Ok (order, SeekCost order).
Proof.
  intros [[_ ->]|[[_ ->]|[[_ ->]|[_ ->]]]]%algorithms_get.
  - eexists. apply fcfs_order.
  - destruct (sstf_greedy requests head) as (served & Hrun & _). eauto.
  - eexists. apply scan_order.
  - eexists. apply c_scan_order.
Qed.

Lemma run_simulation_metrics algo fn requests head disk_size order total :
  dict_get (algorithms disk_size) algo = Ok fn →
  fn requests head = Ok (order, total) →
  run_simulation algo requests head disk_size
  = (avg_seek ← truediv total (len requests);
     throughput ← throughput_of requests total;
     mret (Simulation order total avg_seek throughput)).
Proof.
  intros Hget Hrun. unfold run_simulation.
  rewrite Hget. cbn [mbind outcome_bind]. rewrite Hrun. done.
Qed.

(** The first loop of the comparison: the four totals and orders, keyed by
    policy name in the order of [algorithms]. *)
Lemma compare_loop requests head disk_size o1 t1 o2 t2 o3 t3 o4 t4 :
  fcfs requests head = Ok (o1, t1) →
  sstf requests head = Ok (o2, t2) →
  scan requests head disk_size = Ok (o3, t3) →
  c_scan requests head disk_size = Ok (o4, t4) →
  for_each (algorithms disk_size)
    (λ '(results, orders) '(name, fn),
       '(order, total) ← (fn : policy_fn) requests head;
       mret (dict_set results name total, dict_set orders name order))
    (([] : dict Z), ([] : dict (list Z)))
  = Ok ([("FCFS", t1); ("SSTF", t2); ("SCAN", t3); ("C-SCAN", t4)],
        [("FCFS", o1); ("SSTF", o2); ("SCAN", o3); ("C-SCAN", o4)]).
Proof.
  intros H1 H2 H3 H4. unfold algorithms. cbn [for_each].
  rewrite H1. cbn [mbind outcome_bind mret outcome_ret dict_set].
  rewrite H2. cbn [mbind outcome_bind mret outcome_ret dict_set].
  rewrite !decide_False by done.
  rewrite H3. cbn [mbind outcome_bind mret outcome_ret dict_set].
  rewrite !decide_False by done.
  rewrite H4. cbn [mbind outcome_bind mret outcome_ret dict_set].
  rewrite !decide_False by done. done.
Qed.

(** All four policies return, with totals that are not negative. *)
Lemma policies_return requests head disk_size :
  ∃ o1 t1 o2 t2 o3 t3 o4 t4,
    fcfs requests head = Ok (o1, t1)
    ∧ sstf requests head = Ok (o2, t2)
    ∧ scan requests head disk_size = Ok (o3, t3)
    ∧ c_scan requests head disk_size = Ok (o4, t4)
    ∧ Forall (λ t, 0 ≤ t) [t1; t2; t3; t4].
Proof.
  destruct (sstf_greedy requests head) as (served & Hrun & _).
  eexists _, _, _, _, _, _, _, _.
  split_and!; [apply fcfs_order|exact Hrun|apply scan_order|apply c_scan_order|].
  repeat constructor; apply SeekCost_nonneg.
Qed.

(** A run on a non-empty list, by the size of the two quotients. *)
Lemma run_simulation_cases algo fn requests head disk_size order total :
  requests ≠ [] →
  dict_get (algorithms disk_size) algo = Ok fn →
  fn requests head = Ok (order, total) →
  0 ≤ total →
  ((double_overflow * len requests ≤ total
    ∨ (total ≠ 0 ∧ double_overflow * total ≤ len requests))
   ∧ run_simulation algo requests head disk_size = Raise OverflowError)
  ∨ (total < double_overflow * len requests
     ∧ (total = 0 ∨ len requests < double_overflow * total)
     ∧ run_simulation algo requests head disk_size
       = Ok (Simulation order total
               (Float (nearest_double total (len requests)))
               (if decide (total ≠ 0)
                then Float (nearest_double (len requests) total)
                else Int 0))).
Proof.
  intros Hne Hget Hfn Htotal.
  pose proof (nonempty_len _ Hne) as Hn. pose proof (len_nonneg requests).
  rewrite (run_simulation_metrics _ _ _ _ _ _ _ Hget Hfn).
  destruct (truediv_cases total (len requests) Hn) as [[Hover ->]|[Hfits ->]].
  { left. split; [left; lia|done]. }
  cbn [mbind outcome_bind].
  destruct (decide (total = 0)) as [->|Hnz].
  { right. split_and!; [lia|by left|done]. }
  rewrite throughput_of_nonzero by done.
  destruct (truediv_cases (len requests) total Hnz) as [[Hover ->]|[Hfits' ->]].
  - left. split; [right; split; [done|lia]|done].
  - right. rewrite decide_True by done. split_and!; [lia|right; lia|done].
Qed.

End metrics.

(** Settles the comparisons of literal dictionary keys in the goal. *)
Ltac decide_keys :=
  repeat match goal with
  | |- context [decide (?a = ?b)] =>
      destruct (decide (a = b)) as [?|?]; [try discriminate|try congruence]
  end.

Section comparison.
Implicit Types (requests order : list Z) (head disk_size total : Z) (algo : string).

Lemma compare_all_empty head disk_size :
  compare_all [] head disk_size = Raise ZeroDivisionError.
Proof.
  pose proof (fcfs_order [] head) as H1.
  destruct (sstf_greedy [] head) as (served & H2 & _).
  pose proof (scan_order [] head disk_size) as H3.
  pose proof (c_scan_order [] head disk_size) as H4. cbn zeta in H3, H4.
  unfold compare_all. rewrite (compare_loop _ _ _ _ _ _ _ _ _ _ _ H1 H2 H3 H4).
  done.
Qed.

(** After its first loop the comparison computes the two metric columns,
    averages first. *)
Lemma compare_all_metrics requests head disk_size o1 t1 o2 t2 o3 t3 o4 t4 :
  fcfs requests head = Ok (o1, t1) →
  sstf requests head = Ok (o2, t2) →
  scan requests head disk_size = Ok (o3, t3) →
  c_scan requests head disk_size = Ok (o4, t4) →
  compare_all requests head disk_size
  = (avg ← mapM (λ t, truediv t (len requests)) [t1; t2; t3; t4];
     thr ← mapM (throughput_of requests) [t1; t2; t3; t4];
     mret (Comparison ["FCFS"; "SSTF"; "SCAN"; "C-SCAN"] [t1; t2; t3; t4]
             avg thr
             [("FCFS", o1); ("SSTF", o2); ("SCAN", o3); ("C-SCAN", o4)])).
Proof.
  intros H1 H2 H3 H4.
  unfold compare_all. rewrite (compare_loop _ _ _ _ _ _ _ _ _ _ _ H1 H2 H3 H4).
  cbn [mbind outcome_bind keys values fmap list_fmap fst snd mapM dict_get].
  decide_keys. cbn [mbind outcome_bind]. done.
Qed.

(** The single run of each policy, given what the policy returns. *)
Lemma run_simulation_of requests head disk_size o1 t1 o2 t2 o3 t3 o4 t4 :
  fcfs requests head = Ok (o1, t1) →
  sstf requests head = Ok (o2, t2) →
  scan requests head disk_size = Ok (o3, t3) →
  c_scan requests head disk_size = Ok (o4, t4) →
  Forall2 (λ algo '(order, total),
             run_simulation algo requests head disk_size
             = (avg_seek ← truediv total (len requests);
                throughput ← throughput_of requests total;
                mret (Simulation order total avg_seek throughput)))
    ["FCFS"; "SSTF"; "SCAN"; "C-SCAN"] [(o1, t1); (o2, t2); (o3, t3); (o4, t4)].
Proof.
  intros H1 H2 H3 H4.
  repeat constructor.
  - by apply (run_simulation_metrics "FCFS" fcfs).
  - by apply (run_simulation_metrics "SSTF" sstf).
  - by apply (run_simulation_metrics "SCAN" (λ r h, scan r h disk_size)).
  - by apply (run_simulation_metrics "C-SCAN" (λ r h, c_scan r h disk_size)).
Qed.

End comparison.

(** ** The store level: what a call reads, allocates and updates *)

Section store_rules.
Import Store.
Implicit Types (σ : store) (r : loc) (l : list Z).

Lemma returns_bind {A B} (m : M A) (f : A → M B) σ (Q : B → store → Prop) :
  returns m σ (λ a σ', returns (f a) σ' Q) → returns (m ≫= f) σ Q.
Proof.
  intros (a & σ' & Hm & b & σ'' & Hf & HQ). exists b, σ''. split; [|done].
  unfold mbind, M_bind. by rewrite Hm.
Qed.

Lemma returns_ret {A} (a : A) σ (Q : A → store → Prop) :
  Q a σ → returns (mret a) σ Q.
Proof. intros. by exists a, σ. Qed.

Lemma returns_lift {A} (o : outcome A) a σ (Q : A → store → Prop) :
  o = Ok a → Q a σ → returns (lift o) σ Q.
Proof. intros -> HQ. by exists a, σ. Qed.

Lemma returns_read r l σ (Q : list Z → store → Prop) :
  σ !! r = Some l → Q l σ → returns (read r) σ Q.
Proof. intros Hr HQ. exists l, σ. split; [|done]. unfold read. by rewrite Hr. Qed.

Lemma returns_write r l l0 σ (Q : unit → store → Prop) :
  σ !! r = Some l0 → Q () (<[r := l]> σ) → returns (write r l) σ Q.
Proof.
  intros Hr HQ. exists (), (<[r := l]> σ). split; [|done].
  unfold write. by rewrite Hr.
Qed.

(** Allocation extends the store by an object at an unused reference. *)
Lemma returns_alloc l σ (Q : loc → store → Prop) :
  (∀ r σ', σ !! r = None → σ ⊆ σ' → σ' !! r = Some l → Q r σ') →
  returns (alloc l) σ Q.
Proof.
  intros HQ. exists (fresh (dom σ)), (<[fresh (dom σ) := l]> σ). split; [done|].
  assert (σ !! fresh (dom σ) = None) by apply not_elem_of_dom, is_fresh.
  apply HQ; [done|by apply insert_subseteq|apply lookup_insert_eq].
Qed.

(** Operations that build a new list object from existing ones. *)
Lemma returns_list_copy r l σ (Q : loc → store → Prop) :
  σ !! r = Some l →
  (∀ r' σ', σ !! r' = None → σ ⊆ σ' → σ' !! r' = Some l → Q r' σ') →
  returns (list_copy r) σ Q.
Proof.
  intros Hr HQ. apply returns_bind. eapply returns_read; [done|].
  by apply returns_alloc.
Qed.

Lemma returns_list_add r1 r2 l1 l2 σ (Q : loc → store → Prop) :
  σ !! r1 = Some l1 → σ !! r2 = Some l2 →
  (∀ r' σ', σ !! r' = None → σ ⊆ σ' → σ' !! r' = Some (l1 ++ l2) → Q r' σ') →
  returns (list_add r1 r2) σ Q.
Proof.
  intros Hr1 Hr2 HQ. apply returns_bind. eapply returns_read; [done|].
  apply returns_bind. eapply returns_read; [done|]. by apply returns_alloc.
Qed.

Lemma returns_list_sorted r l σ (Q : loc → store → Prop) :
  σ !! r = Some l →
  (∀ r' σ', σ !! r' = None → σ ⊆ σ' → σ' !! r' = Some (sorted l) → Q r' σ') →
  returns (list_sorted r) σ Q.
Proof.
  intros Hr HQ. apply returns_bind. eapply returns_read; [done|].
  by apply returns_alloc.
Qed.

Lemma returns_list_comp (P : Z → Prop) `{!∀ x, Decision (P x)} r l σ
    (Q : loc → store → Prop) :
  σ !! r = Some l →
  (∀ r' σ', σ !! r' = None → σ ⊆ σ' → σ' !! r' = Some (filter P l) → Q r' σ') →
  returns (list_comp P r) σ Q.
Proof.
  intros Hr HQ. apply returns_bind. eapply returns_read; [done|].
  by apply returns_alloc.
Qed.

Lemma returns_list_reversed r l σ (Q : loc → store → Prop) :
  σ !! r = Some l →
  (∀ r' σ', σ !! r' = None → σ ⊆ σ' → σ' !! r' = Some (reverse l) → Q r' σ') →
  returns (list_reversed r) σ Q.
Proof.
  intros Hr HQ. apply returns_bind. eapply returns_read; [done|].
  by apply returns_alloc.
Qed.

Lemma returns_list_len r l σ (Q : Z → store → Prop) :
  σ !! r = Some l → Q (len l) σ → returns (list_len r) σ Q.
Proof.
  intros Hr HQ. apply returns_bind. eapply returns_read; [done|].
  by apply returns_ret.
Qed.

(** Reading loops: a body that only reads runs as its value-level form. *)
Lemma bind_run {A B} (m : M A) (f : A → M B) σ :
  (m ≫= f) σ
  = match m σ with
    | Ok (a, σ') => f a σ'
    | Raise e => Raise e
    | OutOfFuel => OutOfFuel
    end.
Proof. done. Qed.

Lemma mapM_reads {A B} (f : A → M B) (g : A → outcome B) σ xs :
  (∀ x, f x σ = lift (g x) σ) → mapM f xs σ = lift (mapM g xs) σ.
Proof.
  intros Hf. induction xs as [|x xs IH]; [done|].
  cbn [mapM]. rewrite bind_run, Hf.
  destruct (g x) as [y| |]; cbn [lift mbind outcome_bind]; try done.
  rewrite bind_run, IH.
  by destruct (mapM g xs) as [ys| |].
Qed.

Lemma for_each_reads {A S} (body : S → A → M S) (g : S → A → outcome S) σ xs :
  (∀ s x, body s x σ = lift (g s x) σ) →
  ∀ s, for_each xs body s σ = lift (for_each xs g s) σ.
Proof.
  intros Hbody. induction xs as [|x xs IH]; intros s; [done|].
  cbn [for_each]. rewrite bind_run, Hbody.
  destruct (g s x) as [s'| |]; cbn [lift mbind outcome_bind]; try done.
Qed.

Lemma list_index_reads order l σ i :
  σ !! order = Some l → list_index order i σ = lift (index l i) σ.
Proof. intros Hr. unfold list_index, read. rewrite bind_run, Hr. done. Qed.

Lemma seek_term_reads order l σ (f : Z → Z → Z) (i : Z) :
  σ !! order = Some l →
  (a ← list_index order i; b ← list_index order (i - 1); mret (f a b)) σ
  = lift (a ← index l i; b ← index l (i - 1); mret (f a b)) σ.
Proof.
  intros Hr. rewrite bind_run, (list_index_reads _ _ _ _ Hr).
  destruct (index l i) as [a| |]; cbn [lift mbind outcome_bind]; try done.
  rewrite bind_run, (list_index_reads _ _ _ _ Hr).
  by destruct (index l (i - 1)) as [b| |].
Qed.

Lemma returns_seek_total order l σ (Q : Z → store → Prop) :
  σ !! order = Some l → Q (SeekCost l) σ → returns (Store.seek_total order) σ Q.
Proof.
  intros Hr HQ. unfold Store.seek_total.
  apply returns_bind. eapply returns_list_len; [done|].
  exists (SeekCost l), σ. split; [|done].
  rewrite bind_run.
  rewrite (mapM_reads _
    (λ i, a ← index l i; b ← index l (i - 1); mret (Z.abs (a - b))))
    by (intros i; apply (seek_term_reads _ _ _ (λ a b, Z.abs (a - b)) _ Hr)).
  pose proof (seek_total_correct l) as Hpure. unfold Engine.seek_total in Hpure.
  destruct (mapM _ (range 1 (len l))) as [terms| |]; try done.
  cbn in *. injection Hpure as <-. done.
Qed.

Lemma returns_seek_loop order l σ (Q : Z → store → Prop) :
  σ !! order = Some l →
  Q (SeekCost l) σ →
  returns (for_each (range 1 (len l))
             (λ total i, a ← list_index order i; b ← list_index order (i - 1);
                         mret (total + Z.abs (a - b)))
             0) σ Q.
Proof.
  intros Hr HQ. exists (SeekCost l), σ. split; [|done].
  rewrite (for_each_reads _
    (λ total i, a ← index l i; b ← index l (i - 1); mret (total + Z.abs (a - b))))
    by (intros total i;
        apply (seek_term_reads _ _ _ (λ a b, total + Z.abs (a - b)) _ Hr)).
  by rewrite seek_loop_correct.
Qed.

End store_rules.

(** Carries every known object into the store an allocation produced. *)
Ltac alloc_intro :=
  let r := fresh "r" in
  let σ' := fresh "σ" in
  intros r σ' ? ? ?;
  repeat match goal with
  | Hs : ?σa ⊆ ?σb, H : ?σa !! ?x = Some ?v |- _ =>
      lazymatch goal with
      | _ : σb !! x = Some v |- _ => fail
      | _ => pose proof (lookup_weaken _ _ _ _ H Hs)
      end
  end;
  cbn beta.

(** One statement of a policy that only reads and allocates. *)
Ltac policy_step :=
  lazymatch goal with
  | |- Store.returns (mbind _ _) _ _ => apply returns_bind
  | |- Store.returns (Store.list_comp _ _) _ _ =>
      eapply returns_list_comp; [eassumption|alloc_intro]
  | |- Store.returns (Store.list_sorted _) _ _ =>
      eapply returns_list_sorted; [eassumption|alloc_intro]
  | |- Store.returns (Store.list_reversed _) _ _ =>
      eapply returns_list_reversed; [eassumption|alloc_intro]
  | |- Store.returns (Store.list_add _ _) _ _ =>
      eapply returns_list_add; [eassumption|eassumption|alloc_intro]
  | |- Store.returns (Store.list_copy _) _ _ =>
      eapply returns_list_copy; [eassumption|alloc_intro]
  | |- Store.returns (Store.alloc _) _ _ => apply returns_alloc; alloc_intro
  | |- Store.returns (Store.seek_total _) _ _ =>
      eapply returns_seek_total; [eassumption|]
  | |- Store.returns (Store.list_len _) _ _ =>
      eapply returns_list_len; [eassumption|]
  | |- Store.returns (for_each _ _ _) _ _ =>
      eapply returns_seek_loop; [eassumption|]
  | |- Store.returns (mret _) _ _ => apply returns_ret
  end.

(** The final store extends the initial one, through the allocations. *)
Ltac store_extended :=
  repeat first [ eassumption | etrans; [eassumption|] ].

Section store_policies.
Import Store.
Implicit Types (σ : store) (requests reqs order : loc) (l : list Z) (head : Z).

Lemma intact_of_returns (policy : M (loc * Z)) requests σ l visit_order pure :
  σ !! requests = Some l →
  pure = Ok (visit_order, SeekCost visit_order) →
  returns policy σ (λ res σ',
    σ ⊆ σ' ∧ σ' !! res.1 = Some visit_order ∧ res.2 = SeekCost visit_order) →
  leaves_caller_list_intact policy requests σ pure.
Proof.
  intros Hl -> ([order total] & σ' & Hrun & Hsub & Horder & Htotal).
  cbn [fst snd] in *. subst total.
  exists order, (SeekCost visit_order), σ', visit_order. split_and!; try done.
  rewrite Hl. by eapply lookup_weaken.
Qed.

Lemma store_fcfs requests σ l head :
  σ !! requests = Some l →
  leaves_caller_list_intact (Store.fcfs requests head) requests σ
    (Engine.fcfs l head).
Proof.
  intros Hl. eapply intact_of_returns; [done|apply fcfs_order|].
  unfold Store.fcfs. repeat policy_step.
  split_and!; [store_extended|done|done].
Qed.

Lemma store_scan requests σ l head disk_size :
  σ !! requests = Some l →
  leaves_caller_list_intact (Store.scan requests head disk_size) requests σ
    (Engine.scan l head disk_size).
Proof.
  intros Hl. eapply intact_of_returns; [done|apply scan_order|].
  unfold Store.scan. repeat policy_step.
  cbn [fst snd]. rewrite <-!(assoc_L (++)) in *.
  split_and!; [store_extended|done|done].
Qed.

Lemma store_c_scan requests σ l head disk_size :
  σ !! requests = Some l →
  leaves_caller_list_intact (Store.c_scan requests head disk_size) requests σ
    (Engine.c_scan l head disk_size).
Proof.
  intros Hl. eapply intact_of_returns; [done|apply c_scan_order|].
  unfold Store.c_scan. repeat policy_step.
  cbn [fst snd]. rewrite <-!(assoc_L (++)) in *.
  split_and!; [store_extended|done|done].
Qed.

End store_policies.

Section store_sstf.
Import Store.
Implicit Types (σ : store) (requests reqs order : loc) (l : list Z) (head : Z).

Lemma returns_list_truthy r l σ (Q : bool → store → Prop) :
  σ !! r = Some l → Q (bool_decide (l ≠ [])) σ → returns (list_truthy r) σ Q.
Proof.
  intros Hr HQ. apply returns_bind. eapply returns_read; [done|].
  by apply returns_ret.
Qed.

Lemma returns_list_min_key key r l m σ (Q : Z → store → Prop) :
  σ !! r = Some l → min_key key l = Ok m → Q m σ →
  returns (list_min_key key r) σ Q.
Proof.
  intros Hr Hmin HQ. apply returns_bind. eapply returns_read; [done|].
  by eapply returns_lift.
Qed.

(** [append] updates the object in place. *)
Lemma returns_list_append r l x σ (Q : unit → store → Prop) :
  σ !! r = Some l → Q () (<[r := l ++ [x]]> σ) → returns (list_append r x) σ Q.
Proof.
  intros Hr HQ. apply returns_bind. eapply returns_read; [done|].
  by eapply returns_write.
Qed.

(** [remove] updates the object in place. *)
Lemma returns_list_remove r l l' x σ (Q : unit → store → Prop) :
  σ !! r = Some l → remove x l = Ok l' → Q () (<[r := l']> σ) →
  returns (list_remove r x) σ Q.
Proof.
  intros Hr Hrm HQ. apply returns_bind. eapply returns_read; [done|].
  apply returns_bind. eapply returns_lift; [done|]. by eapply returns_write.
Qed.

(** The loop consumes the object at [reqs], grows the object at [order],
    and touches nothing else. *)
Lemma returns_sstf_loop fuel reqs order : ∀ reqs_l order_l current result σ
    (Q : unit → store → Prop),
  reqs ≠ order →
  σ !! reqs = Some reqs_l →
  σ !! order = Some order_l →
  Engine.sstf_loop fuel reqs_l order_l current = Ok result →
  Q () (<[reqs := []]> (<[order := result]> σ)) →
  returns (Store.sstf_loop fuel reqs order current) σ Q.
Proof.
  assert (∀ σ order_l, σ !! reqs = Some [] → σ !! order = Some order_l →
            <[reqs := []]> (<[order := order_l]> σ) = σ) as Hsame.
  { intros σ order_l Hr Ho. rewrite (insert_id σ order) by done.
    by rewrite insert_id. }
  induction fuel as [|fuel IH];
    intros reqs_l order_l current result σ Q Hne Hr Ho Hpure HQ.
  - destruct reqs_l as [|x reqs_l]; [|done]. injection Hpure as <-.
    cbn [Store.sstf_loop]. apply returns_bind.
    eapply returns_list_truthy; [done|]. cbn.
    apply returns_ret. by rewrite Hsame in HQ.
  - cbn [Store.sstf_loop]. apply returns_bind.
    eapply returns_list_truthy; [done|].
    destruct reqs_l as [|x reqs_l].
    { injection Hpure as <-. cbn. apply returns_ret. by rewrite Hsame in HQ. }
    rewrite bool_decide_true by done.
    cbn [Engine.sstf_loop] in Hpure.
    destruct (min_key _ (x :: reqs_l)) as [nearest| |] eqn:Hmin; try done.
    cbn [mbind outcome_bind] in Hpure.
    destruct (remove nearest (x :: reqs_l)) as [reqs_l'| |] eqn:Hrm; try done.
    cbn [mbind outcome_bind] in Hpure.
    apply returns_bind. eapply returns_list_min_key; [done..|].
    apply returns_bind. eapply returns_list_append; [done|].
    apply returns_bind. eapply returns_list_remove;
      [by rewrite lookup_insert_ne|done|].
    eapply IH; [done| | |exact Hpure|].
    + apply lookup_insert_eq.
    + rewrite lookup_insert_ne by done. apply lookup_insert_eq.
    + assert (<[reqs := []]> (<[order := result]>
                (<[reqs := reqs_l']> (<[order := order_l ++ [nearest]]> σ)))
              = <[reqs := []]> (<[order := result]> σ)) as ->; [|done].
      apply map_eq. intros i.
      destruct (decide (i = reqs)) as [->|]; [by rewrite !lookup_insert_eq|].
      destruct (decide (i = order)) as [->|].
      * rewrite !(lookup_insert_ne _ reqs) by done. by rewrite !lookup_insert_eq.
      * by rewrite !lookup_insert_ne by done.
Qed.

Lemma store_sstf requests σ l head :
  σ !! requests = Some l →
  leaves_caller_list_intact (Store.sstf requests head) requests σ
    (Engine.sstf l head).
Proof.
  intros Hl.
  destruct (sstf_loop_greedy (length l) l [head] head) as (served & Hloop & _);
    [done|].
  assert (Engine.sstf l head = Ok (head :: served, SeekCost (head :: served)))
    as Hpure.
  { unfold Engine.sstf, Engine.sstf_within. rewrite Hloop. cbn [mbind outcome_bind].
    by rewrite seek_total_correct. }
  eapply intact_of_returns; [done|exact Hpure|].
  unfold Store.sstf. apply returns_bind. eapply returns_read; [done|].
  unfold Store.sstf_within.
  apply returns_bind. eapply returns_list_copy; [done|].
  intros reqs σ1 Hreqs_new Hsub1 Hreqs.
  apply returns_bind. apply returns_alloc.
  intros order σ2 Horder_new Hsub2 Horder.
  pose proof (lookup_weaken _ _ _ _ Hreqs Hsub2) as Hreqs2.
  assert (reqs ≠ order) as Hne.
  { intros Heq. rewrite Heq, Horder_new in Hreqs. done. }
  apply returns_bind.
  eapply returns_sstf_loop; [exact Hne|exact Hreqs2|exact Horder|exact Hloop|].
  set (σ' := <[reqs := []]> (<[order := [head] ++ served]> σ2)).
  assert (σ ⊆ σ') as Hsub.
  { apply map_subseteq_spec. intros i x Hi.
    pose proof (lookup_weaken _ _ _ _ Hi Hsub1) as Hi1.
    assert (reqs ≠ i) by (intros Heq; rewrite Heq, Hi in Hreqs_new; done).
    assert (order ≠ i) by (intros Heq; rewrite Heq, Hi1 in Horder_new; done).
    unfold σ'. rewrite !lookup_insert_ne by done.
    by eapply lookup_weaken. }
  assert (σ' !! order = Some (head :: served)) as Horder'.
  { unfold σ'. rewrite lookup_insert_ne by done. apply lookup_insert_eq. }
  apply returns_bind. eapply returns_seek_total; [exact Horder'|].
  apply returns_ret. done.
Qed.

(** The list [sstf] consumes is a new object, distinct from every object
    of the caller. *)
Lemma sstf_working_copy requests σ l :
  σ !! requests = Some l →
  ∃ reqs, list_copy requests σ = Ok (reqs, <[reqs := l]> σ) ∧ σ !! reqs = None.
Proof.
  intros Hl. exists (fresh (dom σ)). split.
  - unfold list_copy. rewrite bind_run. unfold read. by rewrite Hl.
  - apply not_elem_of_dom, is_fresh.
Qed.

End store_sstf.

(** ** The claim about the caller's request list *)

(** C10: after a call of any of the four policies the caller's request
    list holds what it held before, as does every other list object that
    existed; the order is returned in a new object and is the one computed
    from the list contents. The list SSTF removes from is a copy at a
    reference that was unused before the call. *)
Theorem C10_caller_list_unchanged
    (σ : gmap nat (list Z)) (requests : nat) (l : list Z) (head disk_size : Z) :
  σ !! requests = Some l →
  Store.leaves_caller_list_intact (Store.fcfs requests head) requests σ
    (fcfs l head)
  ∧ Store.leaves_caller_list_intact (Store.sstf requests head) requests σ
      (sstf l head)
  ∧ Store.leaves_caller_list_intact (Store.scan requests head disk_size) requests σ
      (scan l head disk_size)
  ∧ Store.leaves_caller_list_intact (Store.c_scan requests head disk_size) requests σ
      (c_scan l head disk_size)
  ∧ ∃ reqs,
      Store.list_copy requests σ = Ok (reqs, <[reqs := l]> σ) ∧ σ !! reqs = None.
Proof.
  intros Hl. split_and!.
  - by apply store_fcfs.
  - by apply store_sstf.
  - by apply store_scan.
  - by apply store_c_scan.
  - by apply sstf_working_copy.
Qed.

(** C10 on the scenario's request list, held at reference 0. *)
Lemma C10_caller_list_unchanged_witness :
  let requests := [82; 170; 43; 140; 24; 16; 190] in
  let σ : gmap nat (list Z) := {[ 0%nat := requests ]} in
  Store.leaves_caller_list_intact (Store.fcfs 0%nat 50) 0%nat σ (fcfs requests 50)
  ∧ Store.leaves_caller_list_intact (Store.sstf 0%nat 50) 0%nat σ (sstf requests 50)
  ∧ Store.leaves_caller_list_intact (Store.scan 0%nat 50 200) 0%nat σ
      (scan requests 50 200)
  ∧ Store.leaves_caller_list_intact (Store.c_scan 0%nat 50 200) 0%nat σ
      (c_scan requests 50 200)
  ∧ ∃ reqs,
      Store.list_copy 0%nat σ = Ok (reqs, <[reqs := requests]> σ) ∧ σ !! reqs = None.
Proof.
  cbv zeta.
  apply (C10_caller_list_unchanged
           {[ 0%nat := [82; 170; 43; 140; 24; 16; 190] ]} 0%nat
           [82; 170; 43; 140; 24; 16; 190] 50 200).
  reflexivity.
Defined.

(** * Further properties of the policies *)

(** ** Seek cost along a path *)

Section seek_paths.
Implicit Types (l path : list Z) (a b x : Z).

Lemma SeekCost_step a b l : SeekCost (a :: b :: l) = Z.abs (b - a) + SeekCost (b :: l).
Proof. done. Qed.

(** The cost of a path splits at any position on it. *)
Lemma SeekCost_split l1 x l2 :
  SeekCost (l1 ++ x :: l2) = SeekCost (l1 ++ [x]) + SeekCost (x :: l2).
Proof.
  induction l1 as [|a [|b l1] IH].
  - cbn [app]. change (SeekCost [x]) with 0. lia.
  - cbn [app]. rewrite !SeekCost_step. change (SeekCost [x]) with 0. lia.
  - cbn [app] in *. rewrite !SeekCost_step, IH. lia.
Qed.

(** Triangle inequality: a path costs at least the distance from its start
    to any position on it. *)
Lemma SeekCost_reaches a l x : x ∈ l → Z.abs (x - a) ≤ SeekCost (a :: l).
Proof.
  revert a. induction l as [|b l IH]; intros a Hx; [by apply elem_of_nil in Hx|].
  rewrite SeekCost_step. pose proof (SeekCost_nonneg (b :: l)).
  apply elem_of_cons in Hx as [->|Hx]; [lia|].
  specialize (IH b Hx). lia.
Qed.

Lemma max_from_larger a b l : a ≤ b → Z.max b (foldr Z.max a l) = foldr Z.max b l.
Proof. intros. induction l as [|x l IH]; cbn [foldr]; lia. Qed.

Lemma min_from_smaller a b l : b ≤ a → Z.min b (foldr Z.min a l) = foldr Z.min b l.
Proof. intros. induction l as [|x l IH]; cbn [foldr]; lia. Qed.

Lemma foldr_max_perm a l l' : l ≡ₚ l' → foldr Z.max a l = foldr Z.max a l'.
Proof. induction 1; cbn [foldr]; lia. Qed.

Lemma foldr_min_perm a l l' : l ≡ₚ l' → foldr Z.min a l = foldr Z.min a l'.
Proof. induction 1; cbn [foldr]; lia. Qed.

Lemma foldr_max_app a l x :
  Forall (λ y, y ≤ x) l → a ≤ x → foldr Z.max a (l ++ [x]) = x.
Proof. induction 1; cbn [foldr app]; lia. Qed.

(** A monotone sweep costs the distance between its two ends. *)
Lemma SeekCost_ascending a l :
  StronglySorted Z.le (a :: l) → SeekCost (a :: l) = foldr Z.max a l - a.
Proof.
  revert a. induction l as [|b l IH]; intros a Hs; [cbn; lia|].
  apply StronglySorted_cons in Hs as [Ha Hs].
  apply Forall_cons in Ha as [Hab _].
  rewrite SeekCost_step, (IH _ Hs). cbn [foldr].
  rewrite max_from_larger by done. lia.
Qed.

Lemma SeekCost_descending a l :
  StronglySorted Z.ge (a :: l) → SeekCost (a :: l) = a - foldr Z.min a l.
Proof.
  revert a. induction l as [|b l IH]; intros a Hs; [cbn; lia|].
  apply StronglySorted_cons in Hs as [Ha Hs].
  apply Forall_cons in Ha as [Hab _].
  rewrite SeekCost_step, (IH _ Hs). cbn [foldr].
  rewrite min_from_smaller by lia. lia.
Qed.

(** A path costs nothing exactly when it never leaves its start. *)
Lemma SeekCost_zero a l : SeekCost (a :: l) = 0 ↔ Forall (λ x, x = a) l.
Proof.
  revert a. induction l as [|b l IH]; intros a; [by split|].
  rewrite SeekCost_step, Forall_cons. pose proof (SeekCost_nonneg (b :: l)).
  split.
  - intros Hz. assert (b = a) as -> by lia. split; [done|]. apply IH. lia.
  - intros [-> Hl]. apply IH in Hl. lia.
Qed.

End seek_paths.

(** ** The two sweeps *)

Section sweep_facts.
Implicit Types (requests : list Z) (head disk_size : Z).

(** [sorted] depends only on the elements, not on their order. *)
Lemma sorted_of_perm (l l' : list Z) : l ≡ₚ l' → sorted l = sorted l'.
Proof.
  intros Hperm. apply (StronglySorted_unique Z.le).
  - apply sorted_ascending.
  - apply sorted_ascending.
  - by rewrite !sorted_perm.
Qed.

Lemma right_ascending requests head disk_size :
  head ≤ disk_size - 1 →
  Forall (λ r, r ≤ disk_size - 1) requests →
  StronglySorted Z.le
    (head :: sorted (filter (λ r, r >= head) requests) ++ [disk_size - 1]).
Proof.
  intros Hhead Hreq.
  assert (Forall (λ r, head ≤ r ≤ disk_size - 1)
            (sorted (filter (λ r, r >= head) requests))) as Hright.
  { rewrite sorted_perm. apply Forall_forall. intros r [Hr Hin]%list_elem_of_filter.
    rewrite Forall_forall in Hreq. specialize (Hreq r Hin). lia. }
  apply StronglySorted_cons. split.
  - apply Forall_app. split; [|by apply Forall_singleton].
    eapply Forall_impl; [exact Hright|]. cbn. intros; lia.
  - apply StronglySorted_app_2; [|apply sorted_ascending|repeat constructor].
    intros x y Hx ->%list_elem_of_singleton.
    rewrite Forall_forall in Hright. specialize (Hright x Hx). lia.
Qed.

End sweep_facts.

Section sweep_totals.
Implicit Types (requests : list Z) (head disk_size : Z).

Lemma scan_total_closed requests head disk_size :
  head ≤ disk_size - 1 →
  Forall (λ r, r ≤ disk_size - 1) requests →
  ∃ order,
    scan requests head disk_size
    = Ok (order,
          (disk_size - 1 - head)
          + (disk_size - 1
             - foldr Z.min (disk_size - 1) (filter (λ r, r < head) requests))).
Proof.
  intros Hhead Hreq. eexists. rewrite scan_order. do 2 f_equal.
  cbn [app]. rewrite app_comm_cons, SeekCost_split.
  pose proof (right_ascending requests head disk_size Hhead Hreq) as Hup.
  cbn [app]. rewrite (SeekCost_ascending _ _ Hup).
  rewrite foldr_max_app; [|
    rewrite sorted_perm; apply Forall_forall; intros r [_ Hin]%list_elem_of_filter;
    rewrite Forall_forall in Hreq; by apply Hreq | done].
  rewrite SeekCost_descending.
  - rewrite (foldr_min_perm _ _ (filter (λ r, r < head) requests))
      by (by rewrite reverse_Permutation, sorted_perm).
    done.
  - change (StronglySorted Z.ge
      ([disk_size - 1] ++ reverse (sorted (filter (λ r, r < head) requests)))).
    apply StronglySorted_app_2;
      [|repeat constructor|apply reverse_descending, sorted_ascending].
    intros x y ->%list_elem_of_singleton Hy.
    rewrite elem_of_reverse, sorted_perm in Hy.
    apply list_elem_of_filter in Hy as [Hy _]. lia.
Qed.

Lemma c_scan_total_closed requests head disk_size :
  0 ≤ head ≤ disk_size - 1 →
  Forall (λ r, 0 ≤ r ≤ disk_size - 1) requests →
  ∃ order,
    c_scan requests head disk_size
    = Ok (order,
          (disk_size - 1 - head) + (disk_size - 1)
          + foldr Z.max 0 (filter (λ r, r < head) requests)).
Proof.
  intros Hhead Hreq. eexists. rewrite c_scan_order. do 2 f_equal.
  cbn [app]. rewrite app_comm_cons, SeekCost_split.
  assert (Forall (λ r, r ≤ disk_size - 1) requests) as Hreq'.
  { eapply Forall_impl; [exact Hreq|]. cbn. intros; lia. }
  pose proof (right_ascending requests head disk_size (proj2 Hhead) Hreq') as Hup.
  cbn [app]. rewrite (SeekCost_ascending _ _ Hup).
  rewrite foldr_max_app; [|
    rewrite sorted_perm; apply Forall_forall; intros r [_ Hin]%list_elem_of_filter;
    rewrite Forall_forall in Hreq'; by apply Hreq' | lia].
  rewrite SeekCost_step, SeekCost_ascending.
  - rewrite (foldr_max_perm _ _ (filter (λ r, r < head) requests))
      by apply sorted_perm.
    lia.
  - apply StronglySorted_cons. split; [|apply sorted_ascending].
    rewrite sorted_perm. apply Forall_forall. intros r [_ Hin]%list_elem_of_filter.
    rewrite Forall_forall in Hreq. specialize (Hreq r Hin). lia.
Qed.

End sweep_totals.

(** X1: SCAN and C-SCAN ignore the order in which the requests arrive: two
    request lists with the same elements give the same visit order and the
    same total. *)
Theorem X1_sweeps_ignore_arrival_order
    (requests requests' : list Z) (head disk_size : Z) :
  requests ≡ₚ requests' →
  scan requests head disk_size = scan requests' head disk_size
  ∧ c_scan requests head disk_size = c_scan requests' head disk_size.
Proof.
  intros Hperm.
  assert (sorted (filter (λ r, r >= head) requests)
          = sorted (filter (λ r, r >= head) requests')) as Hright
    by (apply sorted_of_perm; by rewrite Hperm).
  assert (sorted (filter (λ r, r < head) requests)
          = sorted (filter (λ r, r < head) requests')) as Hleft
    by (apply sorted_of_perm; by rewrite Hperm).
  split.
  - rewrite !scan_order. by rewrite Hright, Hleft.
  - rewrite !c_scan_order. by rewrite Hright, Hleft.
Qed.

Lemma X1_sweeps_ignore_arrival_order_witness :
  scan [82; 170; 43] 50 200 = scan [43; 82; 170] 50 200
  ∧ c_scan [82; 170; 43] 50 200 = c_scan [43; 82; 170] 50 200.
Proof.
  apply (X1_sweeps_ignore_arrival_order [82; 170; 43] [43; 82; 170] 50 200).
  symmetry. apply (Permutation_cons_append [82; 170] 43).
Defined.

(** X2: when the head and every request lie at or below the last cylinder
    [disk_size - 1], SCAN's total is the sweep up to the boundary plus the
    sweep back down to the smallest request below the head (nothing, when
    there is none). *)
Theorem X2_scan_total
    (requests : list Z) (head disk_size : Z) :
  head ≤ disk_size - 1 →
  Forall (λ r, r ≤ disk_size - 1) requests →
  ∃ order,
    scan requests head disk_size
    = Ok (order,
          (disk_size - 1 - head)
          + (disk_size - 1
             - foldr Z.min (disk_size - 1) (filter (λ r, r < head) requests))).
Proof. apply scan_total_closed. Qed.

Lemma X2_scan_total_witness :
  ∃ order,
    scan [82; 170; 43; 140; 24; 16; 190] 50 200
    = Ok (order,
          (200 - 1 - 50)
          + (200 - 1
             - foldr Z.min (200 - 1)
                 (filter (λ r, r < 50) [82; 170; 43; 140; 24; 16; 190]))).
Proof.
  apply (X2_scan_total [82; 170; 43; 140; 24; 16; 190] 50 200).
  - lia.
  - repeat constructor; lia.
Defined.

(** X3: when the head and every request lie in [0, disk_size - 1], C-SCAN's
    total is the sweep up to the boundary, the jump back to cylinder 0, and
    the sweep up to the largest request below the head. *)
Theorem X3_c_scan_total
    (requests : list Z) (head disk_size : Z) :
  0 ≤ head ≤ disk_size - 1 →
  Forall (λ r, 0 ≤ r ≤ disk_size - 1) requests →
  ∃ order,
    c_scan requests head disk_size
    = Ok (order,
          (disk_size - 1 - head) + (disk_size - 1)
          + foldr Z.max 0 (filter (λ r, r < head) requests)).
Proof. apply c_scan_total_closed. Qed.

Lemma X3_c_scan_total_witness :
  ∃ order,
    c_scan [82; 170; 43; 140; 24; 16; 190] 50 200
    = Ok (order,
          (200 - 1 - 50) + (200 - 1)
          + foldr Z.max 0 (filter (λ r, r < 50) [82; 170; 43; 140; 24; 16; 190])).
Proof.
  apply (X3_c_scan_total [82; 170; 43; 140; 24; 16; 190] 50 200).
  - lia.
  - repeat constructor; lia.
Defined.

(** X4: on in-range input (head and requests in [0, disk_size - 1]) C-SCAN
    never has a smaller total than SCAN. *)
Theorem X4_c_scan_not_cheaper_than_scan
    (requests : list Z) (head disk_size : Z) :
  0 ≤ head ≤ disk_size - 1 →
  Forall (λ r, 0 ≤ r ≤ disk_size - 1) requests →
  ∃ scan_order scan_total c_scan_order c_scan_total,
    scan requests head disk_size = Ok (scan_order, scan_total)
    ∧ c_scan requests head disk_size = Ok (c_scan_order, c_scan_total)
    ∧ scan_total ≤ c_scan_total.
Proof.
  intros Hhead Hreq.
  assert (Forall (λ r, r ≤ disk_size - 1) requests) as Hreq'.
  { eapply Forall_impl; [exact Hreq|]. cbn. intros; lia. }
  destruct (scan_total_closed requests head disk_size (proj2 Hhead) Hreq')
    as (o1 & H1).
  destruct (c_scan_total_closed requests head disk_size Hhead Hreq) as (o2 & H2).
  eexists _, _, _, _. split_and!; [exact H1|exact H2|].
  assert (0 ≤ foldr Z.min (disk_size - 1) (filter (λ r, r < head) requests)
          ∧ 0 ≤ foldr Z.max 0 (filter (λ r, r < head) requests)) as [? ?]; [|lia].
  assert (Forall (λ r, 0 ≤ r) (filter (λ r, r < head) requests)) as Hlow.
  { apply Forall_forall. intros r [_ Hin]%list_elem_of_filter.
    rewrite Forall_forall in Hreq. specialize (Hreq r Hin). lia. }
  revert Hlow. generalize (filter (λ r, r < head) requests).
  induction 1; cbn [foldr]; lia.
Qed.

Lemma X4_c_scan_not_cheaper_than_scan_witness :
  ∃ scan_order scan_total c_scan_order c_scan_total,
    scan [82; 170; 43; 140; 24; 16; 190] 50 200 = Ok (scan_order, scan_total)
    ∧ c_scan [82; 170; 43; 140; 24; 16; 190] 50 200 = Ok (c_scan_order, c_scan_total)
    ∧ scan_total ≤ c_scan_total.
Proof.
  apply (X4_c_scan_not_cheaper_than_scan [82; 170; 43; 140; 24; 16; 190] 50 200).
  - lia.
  - repeat constructor; lia.
Defined.

(** ** SSTF on one side of the head, and costs in general *)

Section one_sided.
Implicit Types (reqs served requests : list Z) (current head : Z).

(** From below every remaining request, the greedy order is ascending. *)
Lemma greedy_order_above current reqs served :
  greedy_order current reqs served →
  Forall (λ r, current ≤ r) reqs →
  StronglySorted Z.le (current :: served).
Proof.
  induction 1 as [current|current before x after served [Hb Ha] _ IH];
    intros Habove; [repeat constructor|].
  apply Forall_app in Habove as [Hbefore Hxafter].
  apply Forall_cons in Hxafter as [Hx Hafter].
  assert (StronglySorted Z.le (x :: served)) as Hs.
  { apply IH, Forall_app. split.
    - rewrite Forall_forall in *. intros y Hy.
      specialize (Hb y Hy). specialize (Hbefore y Hy). cbn in *. lia.
    - rewrite Forall_forall in *. intros y Hy.
      specialize (Ha y Hy). specialize (Hafter y Hy). cbn in *. lia. }
  apply StronglySorted_cons. split; [|done].
  apply StronglySorted_cons in Hs as [Hserved _].
  constructor; [done|]. eapply Forall_impl; [exact Hserved|]. cbn. intros; lia.
Qed.

(** From above every remaining request, the greedy order is descending. *)
Lemma greedy_order_below current reqs served :
  greedy_order current reqs served →
  Forall (λ r, r ≤ current) reqs →
  StronglySorted Z.ge (current :: served).
Proof.
  induction 1 as [current|current before x after served [Hb Ha] _ IH];
    intros Hbelow; [repeat constructor|].
  apply Forall_app in Hbelow as [Hbefore Hxafter].
  apply Forall_cons in Hxafter as [Hx Hafter].
  assert (StronglySorted Z.ge (x :: served)) as Hs.
  { apply IH, Forall_app. split.
    - rewrite Forall_forall in *. intros y Hy.
      specialize (Hb y Hy). specialize (Hbefore y Hy). cbn in *. lia.
    - rewrite Forall_forall in *. intros y Hy.
      specialize (Ha y Hy). specialize (Hafter y Hy). cbn in *. lia. }
  apply StronglySorted_cons. split; [|done].
  apply StronglySorted_cons in Hs as [Hserved _].
  constructor; [lia|]. eapply Forall_impl; [exact Hserved|]. cbn. intros; lia.
Qed.

Lemma descending_unique (l1 l2 : list Z) :
  StronglySorted Z.ge l1 → StronglySorted Z.ge l2 → l1 ≡ₚ l2 → l1 = l2.
Proof.
  assert (AntiSymm (=) Z.ge) by (intros x y ? ?; lia).
  apply (StronglySorted_unique Z.ge).
Qed.

(** Every policy's order is a path from the head through every request. *)
Lemma policy_paths requests head disk_size :
  ∃ o1 o2 o3 o4,
    fcfs requests head = Ok (head :: o1, SeekCost (head :: o1))
    ∧ sstf requests head = Ok (head :: o2, SeekCost (head :: o2))
    ∧ scan requests head disk_size = Ok (head :: o3, SeekCost (head :: o3))
    ∧ c_scan requests head disk_size = Ok (head :: o4, SeekCost (head :: o4))
    ∧ o1 = requests
    ∧ o2 ≡ₚ requests
    ∧ o3 ≡ₚ (disk_size - 1) :: requests
    ∧ o4 ≡ₚ (disk_size - 1) :: 0 :: requests.
Proof.
  destruct (sstf_greedy requests head) as (served & Hrun & Hgreedy).
  eexists _, _, _, _. split_and!.
  - apply fcfs_order.
  - exact Hrun.
  - apply scan_order.
  - apply c_scan_order.
  - done.
  - by eapply greedy_order_perm.
  - cbn [app]. rewrite <-Permutation_middle, reverse_Permutation, !sorted_perm.
    by rewrite partition_perm.
  - cbn [app]. rewrite <-!Permutation_middle, !sorted_perm.
    by rewrite partition_perm.
Qed.

End one_sided.

(** X5: when no request lies below the head, SSTF serves the requests in
    ascending order and its total is the distance from the head to the
    largest request. *)
Theorem X5_sstf_all_above (requests : list Z) (head : Z) :
  Forall (λ r, head ≤ r) requests →
  sstf requests head
  = Ok (head :: sorted requests, foldr Z.max head requests - head).
Proof.
  intros Habove.
  destruct (sstf_greedy requests head) as (served & Hrun & Hgreedy).
  pose proof (greedy_order_above _ _ _ Hgreedy Habove) as Hs.
  pose proof (greedy_order_perm _ _ _ Hgreedy) as Hperm.
  rewrite Hrun, (SeekCost_ascending _ _ Hs), (foldr_max_perm _ _ _ Hperm).
  do 3 f_equal. apply (StronglySorted_unique Z.le).
  - by apply StronglySorted_cons in Hs as [_ ?].
  - apply sorted_ascending.
  - by rewrite sorted_perm.
Qed.

Lemma X5_sstf_all_above_witness :
  sstf [82; 170; 140; 190] 50
  = Ok (50 :: sorted [82; 170; 140; 190], foldr Z.max 50 [82; 170; 140; 190] - 50).
Proof.
  apply (X5_sstf_all_above [82; 170; 140; 190] 50).
  repeat constructor; lia.
Defined.

(** X6: when no request lies above the head, SSTF serves the requests in
    descending order and its total is the distance from the head to the
    smallest request. *)
Theorem X6_sstf_all_below (requests : list Z) (head : Z) :
  Forall (λ r, r ≤ head) requests →
  sstf requests head
  = Ok (head :: reverse (sorted requests), head - foldr Z.min head requests).
Proof.
  intros Hbelow.
  destruct (sstf_greedy requests head) as (served & Hrun & Hgreedy).
  pose proof (greedy_order_below _ _ _ Hgreedy Hbelow) as Hs.
  pose proof (greedy_order_perm _ _ _ Hgreedy) as Hperm.
  rewrite Hrun, (SeekCost_descending _ _ Hs), (foldr_min_perm _ _ _ Hperm).
  do 3 f_equal. apply descending_unique.
  - by apply StronglySorted_cons in Hs as [_ ?].
  - apply reverse_descending, sorted_ascending.
  - by rewrite reverse_Permutation, sorted_perm.
Qed.

Lemma X6_sstf_all_below_witness :
  sstf [43; 24; 16] 50
  = Ok (50 :: reverse (sorted [43; 24; 16]), 50 - foldr Z.min 50 [43; 24; 16]).
Proof.
  apply (X6_sstf_all_below [43; 24; 16] 50).
  repeat constructor; lia.
Defined.

(** X7: a policy's total is 0 exactly when the head never moves: for FCFS
    and SSTF when every request equals the head; for SCAN when moreover the
    head is on the last cylinder [disk_size - 1]; for C-SCAN only when
    moreover that cylinder is cylinder 0. *)
Theorem X7_zero_total_characterised (requests : list Z) (head disk_size : Z) :
  ∃ o1 t1 o2 t2 o3 t3 o4 t4,
    fcfs requests head = Ok (o1, t1)
    ∧ sstf requests head = Ok (o2, t2)
    ∧ scan requests head disk_size = Ok (o3, t3)
    ∧ c_scan requests head disk_size = Ok (o4, t4)
    ∧ (t1 = 0 ↔ Forall (λ r, r = head) requests)
    ∧ (t2 = 0 ↔ Forall (λ r, r = head) requests)
    ∧ (t3 = 0 ↔ Forall (λ r, r = head) requests ∧ head = disk_size - 1)
    ∧ (t4 = 0 ↔ Forall (λ r, r = head) requests ∧ head = 0 ∧ disk_size = 1).
Proof.
  destruct (policy_paths requests head disk_size)
    as (o1 & o2 & o3 & o4 & H1 & H2 & H3 & H4 & -> & Hp2 & Hp3 & Hp4).
  eexists _, _, _, _, _, _, _, _.
  split_and!; [exact H1|exact H2|exact H3|exact H4|..];
    rewrite SeekCost_zero.
  - done.
  - by rewrite Hp2.
  - rewrite Hp3, Forall_cons. intuition lia.
  - rewrite Hp4, !Forall_cons. intuition lia.
Qed.

(** X8: for every policy the total is at least the distance from the head
    to any single request. *)
Theorem X8_total_at_least_farthest (requests : list Z) (head disk_size r : Z) :
  r ∈ requests →
  ∃ o1 t1 o2 t2 o3 t3 o4 t4,
    fcfs requests head = Ok (o1, t1)
    ∧ sstf requests head = Ok (o2, t2)
    ∧ scan requests head disk_size = Ok (o3, t3)
    ∧ c_scan requests head disk_size = Ok (o4, t4)
    ∧ Z.abs (r - head) ≤ t1
    ∧ Z.abs (r - head) ≤ t2
    ∧ Z.abs (r - head) ≤ t3
    ∧ Z.abs (r - head) ≤ t4.
Proof.
  intros Hr.
  destruct (policy_paths requests head disk_size)
    as (o1 & o2 & o3 & o4 & H1 & H2 & H3 & H4 & -> & Hp2 & Hp3 & Hp4).
  eexists _, _, _, _, _, _, _, _.
  split_and!; [exact H1|exact H2|exact H3|exact H4|..];
    apply SeekCost_reaches.
  - done.
  - by rewrite Hp2.
  - rewrite Hp3. by apply elem_of_cons; right.
  - rewrite Hp4. by do 2 (apply elem_of_cons; right).
Qed.

Lemma X8_total_at_least_farthest_witness :
  ∃ o1 t1 o2 t2 o3 t3 o4 t4,
    fcfs [82; 170; 43] 50 = Ok (o1, t1)
    ∧ sstf [82; 170; 43] 50 = Ok (o2, t2)
    ∧ scan [82; 170; 43] 50 200 = Ok (o3, t3)
    ∧ c_scan [82; 170; 43] 50 200 = Ok (o4, t4)
    ∧ Z.abs (170 - 50) ≤ t1
    ∧ Z.abs (170 - 50) ≤ t2
    ∧ Z.abs (170 - 50) ≤ t3
    ∧ Z.abs (170 - 50) ≤ t4.
Proof.
  apply (X8_total_at_least_farthest [82; 170; 43] 50 200 170).
  apply elem_of_cons; right. apply elem_of_cons; left. reflexivity.
Defined.

(** * Further properties of the handlers *)

Section handler_facts.
Implicit Types (requests order : list Z) (head disk_size total : Z) (algo : string).

(** A lookup returns the value stored under the key, or raises [KeyError]
    when the key is absent; nothing else. *)
Lemma dict_get_cases {V} (d : dict V) (k : string) :
  (∃ v, dict_get d k = Ok v ∧ (k, v) ∈ d)
  ∨ (dict_get d k = Raise KeyError ∧ k ∉ keys d).
Proof.
  induction d as [|[k' v'] d IH]; cbn [dict_get].
  - right. split; [done|]. apply not_elem_of_nil.
  - case_decide as Hk.
    + subst k'. left. exists v'. split; [done|]. apply elem_of_cons. by left.
    + destruct IH as [(v & Hget & Hin)|[Hget Hnotin]].
      * left. exists v. split; [done|]. apply elem_of_cons. by right.
      * right. split; [done|]. unfold keys in *. cbn [fmap list_fmap fst].
        intros [?|?]%elem_of_cons; [congruence|done].
Qed.

End handler_facts.

(** X9: a single-policy run has exactly four outcomes: [KeyError] when the
    name is none of the four policies; [ZeroDivisionError] when the name is
    known and the request list is empty; [OverflowError] when the list is
    not empty and the average [total / n] or the throughput [n / total] is
    too large for a float; and otherwise the policy's order with its total,
    the average and the throughput as the nearest doubles (the throughput
    being the int [0] when the total is [0]). *)
Theorem X9_run_simulation_outcomes
    (algo : string) (requests : list Z) (head disk_size : Z) :
  ((algo ∉ keys (algorithms disk_size))
   ∧ run_simulation algo requests head disk_size = Raise KeyError)
  ∨ (algo ∈ keys (algorithms disk_size)
     ∧ requests = []
     ∧ run_simulation algo requests head disk_size = Raise ZeroDivisionError)
  ∨ (algo ∈ keys (algorithms disk_size)
     ∧ requests ≠ []
     ∧ ∃ fn order,
         dict_get (algorithms disk_size) algo = Ok fn
         ∧ fn requests head = Ok (order, SeekCost order)
         ∧ (((double_overflow * len requests ≤ SeekCost order
              ∨ (SeekCost order ≠ 0
                 ∧ double_overflow * SeekCost order ≤ len requests))
             ∧ run_simulation algo requests head disk_size = Raise OverflowError)
            ∨ (SeekCost order < double_overflow * len requests
               ∧ (SeekCost order = 0
                  ∨ len requests < double_overflow * SeekCost order)
               ∧ run_simulation algo requests head disk_size
                 = Ok (Simulation order (SeekCost order)
                         (Float (nearest_double (SeekCost order) (len requests)))
                         (if decide (SeekCost order ≠ 0)
                          then Float (nearest_double (len requests)
                                        (SeekCost order))
                          else Int 0))))).
Proof.
  destruct (dict_get_cases (algorithms disk_size) algo)
    as [(fn & Hget & Hin)|[Hget Hnotin]].
  - assert (algo ∈ keys (algorithms disk_size)) as Hkey.
    { unfold keys. apply list_elem_of_fmap. by exists (algo, fn). }
    destruct (algorithms_return disk_size algo fn requests head Hget)
      as (order & Hfn).
    right. destruct requests as [|r requests].
    + left. split_and!; [done..|].
      by rewrite (run_simulation_metrics _ _ _ _ _ _ _ Hget Hfn).
    + right. split_and!; [done..|]. exists fn, order. split_and!; [done..|].
      apply (run_simulation_cases algo fn); [done..|apply SeekCost_nonneg].
  - left. split; [done|]. unfold run_simulation. by rewrite Hget.
Qed.

(** X10: the comparison table agrees with the single runs: whenever a
    comparison returns, the row of each policy holds the total, average and
    throughput that running that policy alone returns, and the order stored
    for it is that run's order. *)
Theorem X10_comparison_rows_are_runs
    (requests : list Z) (head disk_size : Z) (result : comparison)
    (i : nat) (algo : string) :
  compare_all requests head disk_size = Ok result →
  cmp_algorithm result !! i = Some algo →
  ∃ sim,
    run_simulation algo requests head disk_size = Ok sim
    ∧ cmp_total result !! i = Some (sim_total sim)
    ∧ cmp_avg result !! i = Some (sim_avg_seek sim)
    ∧ cmp_throughput result !! i = Some (sim_throughput sim)
    ∧ dict_get (cmp_orders result) algo = Ok (sim_order sim).
Proof.
  intros Hcmp Hi.
  destruct requests as [|r requests];
    [by rewrite compare_all_empty in Hcmp|].
  set (rs := r :: requests) in *.
  destruct (policies_return rs head disk_size)
    as (o1 & t1 & o2 & t2 & o3 & t3 & o4 & t4 & H1 & H2 & H3 & H4 & _).
  pose proof (run_simulation_of _ _ _ _ _ _ _ _ _ _ _ H1 H2 H3 H4) as Hruns.
  apply Forall2_cons_1 in Hruns as [Hr1 Hruns].
  apply Forall2_cons_1 in Hruns as [Hr2 Hruns].
  apply Forall2_cons_1 in Hruns as [Hr3 Hruns].
  apply Forall2_cons_1 in Hruns as [Hr4 _].
  rewrite (compare_all_metrics _ _ _ _ _ _ _ _ _ _ _ H1 H2 H3 H4) in Hcmp.
  cbn [mapM] in Hcmp.
  destruct (truediv t1 (len rs)) as [a1| |] eqn:Ha1;
    cbn [mbind outcome_bind] in Hcmp; try done.
  destruct (truediv t2 (len rs)) as [a2| |] eqn:Ha2;
    cbn [mbind outcome_bind] in Hcmp; try done.
  destruct (truediv t3 (len rs)) as [a3| |] eqn:Ha3;
    cbn [mbind outcome_bind] in Hcmp; try done.
  destruct (truediv t4 (len rs)) as [a4| |] eqn:Ha4;
    cbn [mbind outcome_bind] in Hcmp; try done.
  destruct (throughput_of rs t1) as [b1| |] eqn:Hb1;
    cbn [mbind outcome_bind] in Hcmp; try done.
  destruct (throughput_of rs t2) as [b2| |] eqn:Hb2;
    cbn [mbind outcome_bind] in Hcmp; try done.
  destruct (throughput_of rs t3) as [b3| |] eqn:Hb3;
    cbn [mbind outcome_bind] in Hcmp; try done.
  destruct (throughput_of rs t4) as [b4| |] eqn:Hb4;
    cbn [mbind outcome_bind] in Hcmp; try done.
  cbn [mbind outcome_bind mret outcome_ret] in Hr1, Hr2, Hr3, Hr4.
  injection Hcmp as <-. cbn [cmp_algorithm] in Hi.
  destruct i as [|[|[|[|i]]]]; cbn in Hi; [injection Hi as <-..|done];
    eexists; (split; [eassumption|done]).
Qed.

Lemma X10_comparison_rows_are_runs_witness :
  ∃ result sim,
    compare_all [82; 170; 43] 50 200 = Ok result
    ∧ run_simulation "SCAN" [82; 170; 43] 50 200 = Ok sim
    ∧ cmp_total result !! 2%nat = Some (sim_total sim)
    ∧ cmp_avg result !! 2%nat = Some (sim_avg_seek sim)
    ∧ cmp_throughput result !! 2%nat = Some (sim_throughput sim)
    ∧ dict_get (cmp_orders result) "SCAN" = Ok (sim_order sim).
Proof.
  assert (∃ result, compare_all [82; 170; 43] 50 200 = Ok result
                    ∧ cmp_algorithm result !! 2%nat = Some "SCAN")
    as (result & Hcmp & Hname).
  { eexists. split; [vm_compute; reflexivity|reflexivity]. }
  destruct (X10_comparison_rows_are_runs _ _ _ result 2%nat "SCAN" Hcmp Hname)
    as (sim & Hsim).
  exists result, sim. split; [exact Hcmp|exact Hsim].
Defined.

(** * Request text and animation *)

Section text_facts.
Import Text.
Implicit Types (s : string) (c sep : Ascii.ascii).

(** Splitting gives one piece more than there are separators. *)
Lemma split_length sep s : length (split sep s) = S (occurrences sep s).
Proof.
  induction s as [|c s IH]; [done|]. cbn [split occurrences].
  case_decide; cbn [length]; [by rewrite IH|].
  destruct (split sep s); [done|]. cbn [length] in *. lia.
Qed.

Lemma occurrences_delete_all c sep s :
  c ≠ sep → occurrences sep (delete_all c s) = occurrences sep s.
Proof.
  intros Hne. induction s as [|c' s IH]; [done|]. cbn [delete_all occurrences].
  destruct (decide (c' = c)) as [->|].
  - rewrite decide_False by done. by rewrite IH.
  - cbn [occurrences]. by rewrite IH.
Qed.

End text_facts.

Section parsing_facts.
Import Ui.
Context (int_of : string → option Z).
Implicit Types (pieces : list string) (req_str algo : string).

(** [list(map(int, pieces))] converts every piece, or raises [ValueError]
    at a piece that is not an integer. *)
Lemma ints_cases pieces :
  (∃ zs, mapM (int int_of) pieces = Ok zs
         ∧ Forall2 (λ piece z, int_of piece = Some z) pieces zs)
  ∨ (mapM (int int_of) pieces = Raise ValueError
     ∧ ∃ piece, piece ∈ pieces ∧ int_of piece = None).
Proof.
  induction pieces as [|piece pieces IH].
  - left. exists []. split; [done|constructor].
  - cbn [mapM].
    assert (int int_of piece
            = match int_of piece with Some z => Ok z | None => Raise ValueError end)
      as -> by done.
    destruct (int_of piece) as [z|] eqn:Hz; cbn [mbind outcome_bind].
    + destruct IH as [(zs & -> & Hall)|[-> (bad & Hin & Hbad)]].
      * left. exists (z :: zs). split; [done|by constructor].
      * right. split; [done|]. exists bad. split; [|done].
        apply elem_of_cons. by right.
    + right. split; [done|]. exists piece. split; [|done].
      apply elem_of_cons. by left.
Qed.

End parsing_facts.

Section animation_facts.
Import Ui.
Implicit Types (order pre rest : list Z) (fig traces : list scatter)
  (events : list event).

Lemma index_pair pre a b rest :
  index (pre ++ a :: b :: rest) (len pre + 1 - 1) = Ok a
  ∧ index (pre ++ a :: b :: rest) (len pre + 1) = Ok b.
Proof.
  split.
  - replace (len pre + 1 - 1) with (len pre) by lia. apply index_middle.
  - replace (len pre + 1) with (len (pre ++ [a]))
      by (rewrite len_app, len_cons; done).
    rewrite (cons_middle a pre), app_assoc. apply index_middle.
Qed.

Lemma frames_after_cons fig t traces :
  frames_after fig (t :: traces)
  = [StPlotlyChart (fig ++ [t]); Sleep (Q2Qc (6 # 10))]
    ++ frames_after (fig ++ [t]) traces.
Proof.
  unfold frames_after. cbn [length seq fmap list_fmap concat take].
  f_equal. f_equal. rewrite <-fmap_S_seq, <-list_fmap_compose.
  apply list_fmap_ext. intros _ k _. cbn. by rewrite <-(assoc_L (++)).
Qed.

Lemma moves_step a b rest : moves (a :: b :: rest) = (a, b) :: moves (b :: rest).
Proof. done. Qed.

Lemma moves_length a rest : length (moves (a :: rest)) = length rest.
Proof.
  revert a. induction rest as [|b rest IH]; intros a; [done|].
  rewrite moves_step. cbn [length]. by rewrite IH.
Qed.

(** The drawing loop from any position of the order on. *)
Lemma animate_loop rest : ∀ pre a fig events,
  for_each (range (len pre + 1) (len (pre ++ a :: rest)))
    (λ '(fig, events) i,
       x0 ← index (pre ++ a :: rest) (i - 1); x1 ← index (pre ++ a :: rest) i;
       t0 ← index (pre ++ a :: rest) (i - 1); t1 ← index (pre ++ a :: rest) i;
       let fig := fig ++ [Scatter [x0; x1] [0; 0] "lines+markers+text"
                                  [t0; t1] "top center"] in
       mret (fig, events ++ [StPlotlyChart fig; Sleep (Q2Qc (6 # 10))]))
    (fig, events)
  = Ok (fig ++ (trace_of <$> moves (a :: rest)),
        events ++ frames_after fig (trace_of <$> moves (a :: rest))).
Proof.
  induction rest as [|b rest IH]; intros pre a fig events.
  - rewrite range_nil by (rewrite len_app, len_cons; unfold len; cbn; lia).
    cbn. by rewrite !app_nil_r.
  - rewrite range_cons
      by (rewrite len_app, !len_cons; pose proof (len_nonneg rest); lia).
    cbn [for_each].
    destruct (index_pair pre a b rest) as [-> ->].
    cbn [mbind outcome_bind mret outcome_ret].
    specialize (IH (pre ++ [a]) b).
    rewrite <-(assoc_L (++)) in IH. cbn [app] in IH.
    rewrite len_app, len_cons in IH. change (len []) with 0 in IH.
    replace (len pre + (1 + 0) + 1) with (len pre + 1 + 1) in IH by lia.
    rewrite IH, moves_step. cbn [fmap list_fmap]. rewrite frames_after_cons.
    by rewrite <-!(assoc_L (++)).
Qed.

Lemma animate_frames order speed :
  animate order speed
  = Ok (StWrite "### 🎬 Disk Head Animation"
        :: frames_after [] (trace_of <$> moves order)).
Proof.
  unfold animate. destruct order as [|a rest]; [done|].
  pose proof (animate_loop rest [] a [] [StWrite "### 🎬 Disk Head Animation"])
    as Hloop.
  cbn [app] in Hloop. change (len [] + 1) with 1 in Hloop.
  rewrite Hloop. done.
Qed.

(** The lengths of the moves add up to the seek cost. *)
Lemma moves_total order :
  sum ((λ move, Z.abs (move.2 - move.1)) <$> moves order) = SeekCost order.
Proof.
  induction order as [|a [|b rest] IH]; [done..|].
  rewrite moves_step. cbn [fmap list_fmap fst snd]. rewrite sum_cons, IH. done.
Qed.

End animation_facts.

Section click_facts.
Import Ui.
Context (int_of : string → option Z).
Implicit Types (req_str algo : string) (requests : list Z) (head disk_size : Z).

(** The request list a handler parses is never empty. *)
Lemma ints_of_split req_str requests :
  mapM (int int_of) (Text.split ","%char req_str) = Ok requests →
  Forall2 (λ piece z, int_of piece = Some z) (Text.split ","%char req_str) requests
  ∧ requests ≠ [].
Proof.
  intros Hints.
  destruct (ints_cases int_of (Text.split ","%char req_str))
    as [(zs & Hzs & Hall)|[Hfail _]]; [|congruence].
  assert (zs = requests) as -> by congruence. split; [done|].
  apply Forall2_length in Hall. rewrite split_length in Hall.
  by destruct requests.
Qed.

Lemma run_simulation_ok algo requests head disk_size sim :
  run_simulation algo requests head disk_size = Ok sim →
  requests ≠ [] ∧ sim_total sim = SeekCost (sim_order sim).
Proof.
  intros Hrun.
  destruct (dict_get_cases (algorithms disk_size) algo)
    as [(fn & Hget & _)|[Hget _]];
    [|unfold run_simulation in Hrun; by rewrite Hget in Hrun].
  destruct (algorithms_return disk_size algo fn requests head Hget)
    as (order & Hfn).
  destruct requests as [|r requests].
  - by rewrite (run_simulation_metrics _ _ _ _ _ _ _ Hget Hfn) in Hrun.
  - assert (r :: requests ≠ []) as Hne by done. split; [done|].
    destruct (run_simulation_cases _ _ _ _ _ _ _ Hne Hget Hfn
                (SeekCost_nonneg order)) as [[_ Hraise]|(_ & _ & Hok)];
      [congruence|].
    rewrite Hok in Hrun. by injection Hrun as <-.
Qed.

(** A known policy on a non-empty list returns, unless a metric is too
    large for a float. *)
Lemma known_algorithm_outcomes algo requests head disk_size :
  algo ∈ keys (algorithms disk_size) →
  requests ≠ [] →
  run_simulation algo requests head disk_size = Raise OverflowError
  ∨ ∃ sim, run_simulation algo requests head disk_size = Ok sim.
Proof.
  intros Hkey Hne.
  destruct (dict_get_cases (algorithms disk_size) algo)
    as [(fn & Hget & _)|[_ Hnotin]]; [|done].
  destruct (algorithms_return disk_size algo fn requests head Hget)
    as (order & Hfn).
  destruct (run_simulation_cases _ _ _ _ _ _ _ Hne Hget Hfn
              (SeekCost_nonneg order)) as [[_ Hraise]|(_ & _ & Hok)];
    [by left|right; by eexists].
Qed.

End click_facts.

(** Settles one metric of the comparison: when it is too large the
    comparison and that policy's own run both end in [OverflowError]. *)
Ltac metric_step Hcmp Hr cases pos :=
  let E := fresh "E" in
  destruct cases as [[? E]|E];
    rewrite E in Hcmp, Hr; cbn [mbind outcome_bind] in Hcmp, Hr;
    [|right; split; [exact Hcmp|]; pos; exact Hr].

Section all_or_nothing.
Implicit Types (requests : list Z) (head disk_size : Z).

(** The comparison returns exactly when each of the four runs returns;
    otherwise it ends in [OverflowError], as does the run of some policy. *)
Lemma compare_all_outcomes requests head disk_size :
  requests ≠ [] →
  (∃ result,
     compare_all requests head disk_size = Ok result
     ∧ cmp_algorithm result = ["FCFS"; "SSTF"; "SCAN"; "C-SCAN"]
     ∧ length (cmp_total result) = 4%nat
     ∧ length (cmp_avg result) = 4%nat
     ∧ length (cmp_throughput result) = 4%nat
     ∧ keys (cmp_orders result) = ["FCFS"; "SSTF"; "SCAN"; "C-SCAN"]
     ∧ Forall (λ algo, ∃ sim, run_simulation algo requests head disk_size = Ok sim)
         ["FCFS"; "SSTF"; "SCAN"; "C-SCAN"])
  ∨ (compare_all requests head disk_size = Raise OverflowError
     ∧ Exists (λ algo, run_simulation algo requests head disk_size
                       = Raise OverflowError)
         ["FCFS"; "SSTF"; "SCAN"; "C-SCAN"]).
Proof.
  intros Hne.
  destruct (policies_return requests head disk_size)
    as (o1 & t1 & o2 & t2 & o3 & t3 & o4 & t4 & H1 & H2 & H3 & H4 & _).
  pose proof (run_simulation_of _ _ _ _ _ _ _ _ _ _ _ H1 H2 H3 H4) as Hruns.
  apply Forall2_cons_1 in Hruns as [Hr1 Hruns].
  apply Forall2_cons_1 in Hruns as [Hr2 Hruns].
  apply Forall2_cons_1 in Hruns as [Hr3 Hruns].
  apply Forall2_cons_1 in Hruns as [Hr4 _].
  pose proof (compare_all_metrics _ _ _ _ _ _ _ _ _ _ _ H1 H2 H3 H4) as Hcmp.
  cbn [mapM] in Hcmp.
  metric_step Hcmp Hr1 (average_cases requests t1 Hne)
    ltac:(apply Exists_cons_hd).
  metric_step Hcmp Hr2 (average_cases requests t2 Hne)
    ltac:(apply Exists_cons_tl, Exists_cons_hd).
  metric_step Hcmp Hr3 (average_cases requests t3 Hne)
    ltac:(do 2 apply Exists_cons_tl; apply Exists_cons_hd).
  metric_step Hcmp Hr4 (average_cases requests t4 Hne)
    ltac:(do 3 apply Exists_cons_tl; apply Exists_cons_hd).
  metric_step Hcmp Hr1 (throughput_of_cases requests t1)
    ltac:(apply Exists_cons_hd).
  metric_step Hcmp Hr2 (throughput_of_cases requests t2)
    ltac:(apply Exists_cons_tl, Exists_cons_hd).
  metric_step Hcmp Hr3 (throughput_of_cases requests t3)
    ltac:(do 2 apply Exists_cons_tl; apply Exists_cons_hd).
  metric_step Hcmp Hr4 (throughput_of_cases requests t4)
    ltac:(do 3 apply Exists_cons_tl; apply Exists_cons_hd).
  left. eexists. split_and!; [exact Hcmp|done..|].
  repeat constructor; eexists; eassumption.
Qed.

End all_or_nothing.

(** X11: [parse_requests] never raises. It removes the spaces, splits the
    text at the commas and converts each piece: when every piece is an
    integer it returns their list, which has one element more than the
    text has commas (so it is never empty) and reports nothing; when some
    piece is not an integer it returns [None] after one error message. *)
Theorem X11_parse_requests_result (int_of : string → option Z) (req_str : string) :
  let pieces := Text.split ","%char (Text.delete_all " "%char req_str) in
  (∃ req_list,
     Ui.parse_requests int_of req_str = (Some req_list, [])
     ∧ Forall2 (λ piece z, int_of piece = Some z) pieces req_list
     ∧ length req_list = S (Text.occurrences ","%char req_str))
  ∨ (Ui.parse_requests int_of req_str
     = (None, [Ui.StError "❌ Invalid input! Enter numbers separated by commas."])
     ∧ ∃ piece, piece ∈ pieces ∧ int_of piece = None).
Proof.
  cbn zeta. unfold Ui.parse_requests.
  destruct (ints_cases int_of
              (Text.split ","%char (Text.delete_all " "%char req_str)))
    as [(zs & -> & Hall)|[-> Hbad]].
  - left. exists zs. split_and!; [done..|].
    apply Forall2_length in Hall.
    by rewrite <-Hall, split_length, occurrences_delete_all.
  - by right.
Qed.

(** X12: a "Run Simulation" click on a known policy never divides by zero:
    the request list parsed from the text is never empty. The click raises
    [ValueError] at a piece that is not an integer, or parses a non-empty
    list and then either ends in [OverflowError] (a metric too large for a
    float) or returns the run's metrics and its animation. *)
Theorem X12_run_click_outcomes
    (int_of : string → option Z) (req_str algo : string)
    (head disk_size : Z) (speed : Qc) :
  algo ∈ keys (algorithms disk_size) →
  (Ui.run_simulation_click int_of req_str algo head disk_size speed
   = Raise ValueError
   ∧ ∃ piece, piece ∈ Text.split ","%char req_str ∧ int_of piece = None)
  ∨ (∃ requests,
       Forall2 (λ piece z, int_of piece = Some z)
         (Text.split ","%char req_str) requests
       ∧ requests ≠ []
       ∧ ((run_simulation algo requests head disk_size = Raise OverflowError
           ∧ Ui.run_simulation_click int_of req_str algo head disk_size speed
             = Raise OverflowError)
          ∨ (∃ sim events,
               run_simulation algo requests head disk_size = Ok sim
               ∧ Ui.animate (sim_order sim) speed = Ok events
               ∧ Ui.run_simulation_click int_of req_str algo head disk_size speed
                 = Ok (sim, events)))).
Proof.
  intros Hkey. unfold Ui.run_simulation_click.
  destruct (ints_cases int_of (Text.split ","%char req_str))
    as [(requests & Hints & _)|[-> Hbad]]; [|by left].
  destruct (ints_of_split _ _ _ Hints) as [Hall Hne].
  right. exists requests. split_and!; [done..|].
  rewrite Hints. cbn [mbind outcome_bind].
  destruct (known_algorithm_outcomes algo requests head disk_size Hkey Hne)
    as [Hover|(sim & Hsim)].
  - left. by rewrite Hover.
  - right. exists sim. eexists. split_and!; [done|apply animate_frames|].
    rewrite Hsim. cbn [mbind outcome_bind]. by rewrite animate_frames.
Qed.

Lemma X12_run_click_outcomes_witness :
  let int_of := λ s : string, Some (Z.of_nat (String.length s)) in
  (Ui.run_simulation_click int_of "82,170" "SCAN" 50 200 1%Qc = Raise ValueError
   ∧ ∃ piece, piece ∈ Text.split ","%char "82,170" ∧ int_of piece = None)
  ∨ (∃ requests,
       Forall2 (λ piece z, int_of piece = Some z)
         (Text.split ","%char "82,170") requests
       ∧ requests ≠ []
       ∧ ((run_simulation "SCAN" requests 50 200 = Raise OverflowError
           ∧ Ui.run_simulation_click int_of "82,170" "SCAN" 50 200 1%Qc
             = Raise OverflowError)
          ∨ (∃ sim events,
               run_simulation "SCAN" requests 50 200 = Ok sim
               ∧ Ui.animate (sim_order sim) 1%Qc = Ok events
               ∧ Ui.run_simulation_click int_of "82,170" "SCAN" 50 200 1%Qc
                 = Ok (sim, events)))).
Proof.
  cbv zeta.
  apply (X12_run_click_outcomes
           (λ s : string, Some (Z.of_nat (String.length s)))
           "82,170" "SCAN" 50 200 1%Qc).
  cbn. repeat constructor.
Defined.

(** X13: a "Compare All Algorithms" click never divides by zero. It raises
    [ValueError] at a piece of the text that is not an integer, or parses a
    non-empty list and then either ends in [OverflowError] (a metric too
    large for a float) with no table, or returns the full comparison. *)
Theorem X13_compare_click_outcomes
    (int_of : string → option Z) (req_str : string) (head disk_size : Z) :
  (Ui.compare_click int_of req_str head disk_size = Raise ValueError
   ∧ ∃ piece, piece ∈ Text.split ","%char req_str ∧ int_of piece = None)
  ∨ (∃ request_list,
       Forall2 (λ piece z, int_of piece = Some z)
         (Text.split ","%char req_str) request_list
       ∧ request_list ≠ []
       ∧ ((compare_all request_list head disk_size = Raise OverflowError
           ∧ Ui.compare_click int_of req_str head disk_size = Raise OverflowError)
          ∨ (∃ result,
               compare_all request_list head disk_size = Ok result
               ∧ Ui.compare_click int_of req_str head disk_size = Ok result))).
Proof.
  unfold Ui.compare_click.
  destruct (ints_cases int_of (Text.split ","%char req_str))
    as [(request_list & Hints & _)|[-> Hbad]]; [|by left].
  destruct (ints_of_split _ _ _ Hints) as [Hall Hne].
  right. exists request_list. split_and!; [done..|].
  rewrite Hints. cbn [mbind outcome_bind].
  destruct (compare_all_outcomes request_list head disk_size Hne)
    as [(result & Hcmp & _)|[Hcmp _]].
  - right. by exists result.
  - by left.
Qed.

(** X14: [animate] never fails and does not use its [speed] argument.
    After the title it draws one chart per move of the order (one fewer
    than the order has positions; none for an empty or one-element order);
    the k-th chart shows the first k moves, one trace per move, and each
    chart is followed by the same fixed pause. *)
Theorem X14_animate_frames (order : list Z) (speed : Qc) :
  Ui.animate order speed
  = Ok (Ui.StWrite "### 🎬 Disk Head Animation"
        :: Ui.frames_after [] (Ui.trace_of <$> Ui.moves order))
  ∧ length (Ui.moves order) = (length order - 1)%nat.
Proof.
  split; [apply animate_frames|].
  destruct order as [|a rest]; [done|].
  rewrite moves_length. cbn [length]. lia.
Qed.

(** X15: in a "Run Simulation" click that returns, the animation draws the
    moves of the order shown, and the lengths of those moves add up to the
    total seek time shown. *)
Theorem X15_animation_matches_total
    (int_of : string → option Z) (req_str algo : string)
    (head disk_size : Z) (speed : Qc)
    (sim : simulation) (events : list Ui.event) :
  Ui.run_simulation_click int_of req_str algo head disk_size speed
  = Ok (sim, events) →
  events = Ui.StWrite "### 🎬 Disk Head Animation"
           :: Ui.frames_after [] (Ui.trace_of <$> Ui.moves (sim_order sim))
  ∧ sum ((λ move, Z.abs (move.2 - move.1)) <$> Ui.moves (sim_order sim))
    = sim_total sim.
Proof.
  unfold Ui.run_simulation_click. intros Hclick.
  destruct (mapM _ (Text.split ","%char req_str)) as [requests| |]; try done.
  cbn [mbind outcome_bind] in Hclick.
  destruct (run_simulation algo requests head disk_size) as [sim'| |] eqn:Hsim;
    try done.
  cbn [mbind outcome_bind] in Hclick. rewrite animate_frames in Hclick.
  injection Hclick as -> <-.
  apply run_simulation_ok in Hsim as [_ ->]. split; [done|apply moves_total].
Qed.

Lemma X15_animation_matches_total_witness :
  ∃ sim events,
    Ui.run_simulation_click (λ s, Some (Z.of_nat (String.length s)))
      "82,170" "SCAN" 50 200 1%Qc = Ok (sim, events)
    ∧ events = Ui.StWrite "### 🎬 Disk Head Animation"
               :: Ui.frames_after [] (Ui.trace_of <$> Ui.moves (sim_order sim))
    ∧ sum ((λ move, Z.abs (move.2 - move.1)) <$> Ui.moves (sim_order sim))
      = sim_total sim.
Proof.
  assert (∃ sim events,
            Ui.run_simulation_click (λ s, Some (Z.of_nat (String.length s)))
              "82,170" "SCAN" 50 200 1%Qc = Ok (sim, events))
    as (sim & events & Hclick).
  { eexists _, _. vm_compute. reflexivity. }
  exists sim, events. split; [exact Hclick|].
  exact (X15_animation_matches_total _ _ _ _ _ _ _ _ Hclick).
Defined.

(** * Sharing of list objects between calls *)

Section store_sharing.
Import Store.
Implicit Types (σ : store) (requests reqs order : loc) (l : list Z) (head : Z).

Lemma returns_mono {A} (m : M A) σ (Q Q' : A → store → Prop) :
  returns m σ Q → (∀ a σ', Q a σ' → Q' a σ') → returns m σ Q'.
Proof. intros (a & σ' & Hm & HQ) Himp. exists a, σ'. eauto. Qed.

(** The result of a call: the store only grew, and the order is held by an
    object at a reference that was unused before the call. *)
Let new_order σ (visit_order : list Z) : loc * Z → store → Prop :=
  λ res σ',
    σ ⊆ σ' ∧ σ !! res.1 = None ∧ σ' !! res.1 = Some visit_order
    ∧ res.2 = SeekCost visit_order.

Lemma fcfs_new_order requests σ l head :
  σ !! requests = Some l →
  returns (Store.fcfs requests head) σ (new_order σ (head :: l)).
Proof.
  intros Hl. unfold Store.fcfs. repeat policy_step.
  split_and!; [store_extended| |done|done].
  eapply lookup_weaken_None; [eassumption|store_extended].
Qed.

Lemma scan_new_order requests σ l head disk_size :
  σ !! requests = Some l →
  returns (Store.scan requests head disk_size) σ
    (new_order σ ([head] ++ sorted (filter (λ r, r >= head) l)
                  ++ [disk_size - 1]
                  ++ reverse (sorted (filter (λ r, r < head) l)))).
Proof.
  intros Hl. unfold Store.scan. repeat policy_step.
  unfold new_order. cbn [fst snd]. rewrite <-!(assoc_L (++)) in *.
  split_and!; [store_extended| |done|done].
  eapply lookup_weaken_None; [eassumption|store_extended].
Qed.

Lemma c_scan_new_order requests σ l head disk_size :
  σ !! requests = Some l →
  returns (Store.c_scan requests head disk_size) σ
    (new_order σ ([head] ++ sorted (filter (λ r, r >= head) l)
                  ++ [disk_size - 1; 0]
                  ++ sorted (filter (λ r, r < head) l))).
Proof.
  intros Hl. unfold Store.c_scan. repeat policy_step.
  unfold new_order. cbn [fst snd]. rewrite <-!(assoc_L (++)) in *.
  split_and!; [store_extended| |done|done].
  eapply lookup_weaken_None; [eassumption|store_extended].
Qed.

Lemma sstf_new_order requests σ l head served :
  σ !! requests = Some l →
  Engine.sstf_loop (length l) l [head] head = Ok ([head] ++ served) →
  returns (Store.sstf requests head) σ (new_order σ (head :: served)).
Proof.
  intros Hl Hloop.
  unfold Store.sstf. apply returns_bind. eapply returns_read; [done|].
  unfold Store.sstf_within.
  apply returns_bind. eapply returns_list_copy; [done|].
  intros reqs σ1 Hreqs_new Hsub1 Hreqs.
  apply returns_bind. apply returns_alloc.
  intros order σ2 Horder_new Hsub2 Horder.
  pose proof (lookup_weaken _ _ _ _ Hreqs Hsub2) as Hreqs2.
  assert (reqs ≠ order) as Hne.
  { intros Heq. rewrite Heq, Horder_new in Hreqs. done. }
  apply returns_bind.
  eapply returns_sstf_loop; [exact Hne|exact Hreqs2|exact Horder|exact Hloop|].
  set (σ' := <[reqs := []]> (<[order := [head] ++ served]> σ2)).
  assert (σ ⊆ σ') as Hsub.
  { apply map_subseteq_spec. intros i x Hi.
    pose proof (lookup_weaken _ _ _ _ Hi Hsub1) as Hi1.
    assert (reqs ≠ i) by (intros Heq; rewrite Heq, Hi in Hreqs_new; done).
    assert (order ≠ i) by (intros Heq; rewrite Heq, Hi1 in Horder_new; done).
    unfold σ'. rewrite !lookup_insert_ne by done.
    by eapply lookup_weaken. }
  assert (σ' !! order = Some (head :: served)) as Horder'.
  { unfold σ'. rewrite lookup_insert_ne by done. apply lookup_insert_eq. }
  apply returns_bind. eapply returns_seek_total; [exact Horder'|].
  apply returns_ret. split_and!; [done| |done|done].
  by eapply lookup_weaken_None.
Qed.

End store_sharing.

(** X16: the order a policy returns is a new list object: its reference
    designated no object before the call, so it is neither the caller's
    request list nor any other list the caller holds. *)
Theorem X16_order_is_new_object
    (σ : gmap nat (list Z)) (requests : nat) (l : list Z) (head disk_size : Z) :
  σ !! requests = Some l →
  Forall (λ policy : Store.M (nat * Z),
            ∃ order total σ',
              policy σ = Ok ((order, total), σ')
              ∧ σ !! order = None
              ∧ order ≠ requests
              ∧ is_Some (σ' !! order))
    [ Store.fcfs requests head;
      Store.sstf requests head;
      Store.scan requests head disk_size;
      Store.c_scan requests head disk_size ].
Proof.
  intros Hl.
  destruct (sstf_loop_greedy (length l) l [head] head) as (served & Hloop & _);
    [done|].
  assert (∀ (policy : Store.M (nat * Z)) visit_order,
            Store.returns policy σ (λ res σ',
              σ ⊆ σ' ∧ σ !! res.1 = None ∧ σ' !! res.1 = Some visit_order
              ∧ res.2 = SeekCost visit_order) →
            ∃ order total σ',
              policy σ = Ok ((order, total), σ')
              ∧ σ !! order = None
              ∧ order ≠ requests
              ∧ is_Some (σ' !! order)) as Hnew.
  { intros policy visit_order ([order total] & σ' & Hrun & _ & Hnone & Hsome & _).
    cbn [fst] in *. exists order, total, σ'. split_and!; [done..| |by eexists].
    intros ->. by rewrite Hl in Hnone. }
  repeat constructor; eapply Hnew.
  - by apply fcfs_new_order.
  - by eapply sstf_new_order.
  - by apply scan_new_order.
  - by apply c_scan_new_order.
Qed.

Lemma X16_order_is_new_object_witness :
  let σ : gmap nat (list Z) := {[ 0%nat := [82; 170; 43] ]} in
  Forall (λ policy : Store.M (nat * Z),
            ∃ order total σ',
              policy σ = Ok ((order, total), σ')
              ∧ σ !! order = None
              ∧ order ≠ 0%nat
              ∧ is_Some (σ' !! order))
    [ Store.fcfs 0%nat 50;
      Store.sstf 0%nat 50;
      Store.scan 0%nat 50 200;
      Store.c_scan 0%nat 50 200 ].
Proof.
  cbv zeta.
  apply (X16_order_is_new_object {[ 0%nat := [82; 170; 43] ]} 0%nat [82; 170; 43]
           50 200).
  reflexivity.
Defined.

Lemma ret_run {A} (a : A) (σ : gmap nat (list Z)) :
  (mret a : Store.M A) σ = Ok (a, σ).
Proof. done. Qed.

(** Moves to the next entry of [algorithms] once a policy has returned. *)
Ltac loop_next :=
  cbv beta iota zeta; rewrite ret_run; cbn [dict_set]; decide_keys;
  cbv beta iota zeta.

(** X17: in a comparison every policy is handed the same list object, and
    because none of them updates it each one computes from the original
    requests: the four totals are those of the four policies on the list
    as the caller holds it, the four orders are held by four distinct new
    objects that all still hold their order when the loop ends, and the
    caller's list is unchanged. *)
Theorem X17_comparison_shares_one_list
    (σ : gmap nat (list Z)) (request_list : nat) (l : list Z) (head disk_size : Z) :
  σ !! request_list = Some l →
  ∃ o1 t1 v1 o2 t2 v2 o3 t3 v3 o4 t4 v4 σ',
    Sharing.compare_loop request_list head disk_size σ
    = Ok (([("FCFS", t1); ("SSTF", t2); ("SCAN", t3); ("C-SCAN", t4)],
           [("FCFS", o1); ("SSTF", o2); ("SCAN", o3); ("C-SCAN", o4)]), σ')
    ∧ fcfs l head = Ok (v1, t1)
    ∧ sstf l head = Ok (v2, t2)
    ∧ scan l head disk_size = Ok (v3, t3)
    ∧ c_scan l head disk_size = Ok (v4, t4)
    ∧ σ' !! o1 = Some v1
    ∧ σ' !! o2 = Some v2
    ∧ σ' !! o3 = Some v3
    ∧ σ' !! o4 = Some v4
    ∧ σ' !! request_list = Some l
    ∧ NoDup [request_list; o1; o2; o3; o4].
Proof.
  intros Hl.
  destruct (sstf_loop_greedy (length l) l [head] head) as (served & Hloop & _);
    [done|].
  assert (sstf l head = Ok (head :: served, SeekCost (head :: served))) as Hsstf.
  { unfold sstf, sstf_within. rewrite Hloop. cbn [mbind outcome_bind].
    by rewrite seek_total_correct. }
  pose proof (fcfs_order l head) as Hfcfs.
  pose proof (scan_order l head disk_size) as Hscan.
  pose proof (c_scan_order l head disk_size) as Hcscan. cbn zeta in Hscan, Hcscan.
  destruct (fcfs_new_order request_list σ l head Hl)
    as ([o1 t1] & σ1 & Hrun1 & Hsub1 & Hnew1 & Hv1 & Ht1).
  pose proof (lookup_weaken _ _ _ _ Hl Hsub1) as Hl1.
  destruct (sstf_new_order request_list σ1 l head served Hl1 Hloop)
    as ([o2 t2] & σ2 & Hrun2 & Hsub2 & Hnew2 & Hv2 & Ht2).
  pose proof (lookup_weaken _ _ _ _ Hl1 Hsub2) as Hl2.
  destruct (scan_new_order request_list σ2 l head disk_size Hl2)
    as ([o3 t3] & σ3 & Hrun3 & Hsub3 & Hnew3 & Hv3 & Ht3).
  pose proof (lookup_weaken _ _ _ _ Hl2 Hsub3) as Hl3.
  destruct (c_scan_new_order request_list σ3 l head disk_size Hl3)
    as ([o4 t4] & σ4 & Hrun4 & Hsub4 & Hnew4 & Hv4 & Ht4).
  pose proof (lookup_weaken _ _ _ _ Hl3 Hsub4) as Hl4.
  cbn [fst snd] in *. subst t1 t2 t3 t4.
  eexists o1, _, _, o2, _, _, o3, _, _, o4, _, _, σ4.
  split_and!; [|exact Hfcfs|exact Hsstf|exact Hscan|exact Hcscan|..].
  - unfold Sharing.compare_loop, Sharing.algorithms. cbn [for_each].
    rewrite bind_run, bind_run, Hrun1. loop_next.
    rewrite bind_run, bind_run, Hrun2. loop_next.
    rewrite bind_run, bind_run, Hrun3. loop_next.
    rewrite bind_run, bind_run, Hrun4. loop_next.
    done.
  - eauto using lookup_weaken.
  - eauto using lookup_weaken.
  - eauto using lookup_weaken.
  - done.
  - done.
  - pose proof (lookup_weaken _ _ _ _ Hv1 Hsub2) as Hv12.
    pose proof (lookup_weaken _ _ _ _ Hv12 Hsub3) as Hv13.
    pose proof (lookup_weaken _ _ _ _ Hv2 Hsub3) as Hv23.
    assert (∀ (τ : gmap nat (list Z)) a b x,
              τ !! a = Some x → τ !! b = None → a ≠ b) as Hdistinct
      by (intros τ a b x Ha Hb ->; by rewrite Ha in Hb).
    pose proof (Hdistinct _ _ _ _ Hl Hnew1).
    pose proof (Hdistinct _ _ _ _ Hl1 Hnew2).
    pose proof (Hdistinct _ _ _ _ Hl2 Hnew3).
    pose proof (Hdistinct _ _ _ _ Hl3 Hnew4).
    pose proof (Hdistinct _ _ _ _ Hv1 Hnew2).
    pose proof (Hdistinct _ _ _ _ Hv12 Hnew3).
    pose proof (Hdistinct _ _ _ _ Hv13 Hnew4).
    pose proof (Hdistinct _ _ _ _ Hv2 Hnew3).
    pose proof (Hdistinct _ _ _ _ Hv23 Hnew4).
    pose proof (Hdistinct _ _ _ _ Hv3 Hnew4).
    repeat (apply NoDup_cons; split); [..|apply NoDup_nil_2];
      rewrite ?elem_of_cons, ?elem_of_nil; intuition congruence.
Qed.

Lemma X17_comparison_shares_one_list_witness :
  let l := [82; 170; 43; 140; 24; 16; 190] in
  let σ : gmap nat (list Z) := {[ 0%nat := l ]} in
  ∃ o1 t1 v1 o2 t2 v2 o3 t3 v3 o4 t4 v4 σ',
    Sharing.compare_loop 0%nat 50 200 σ
    = Ok (([("FCFS", t1); ("SSTF", t2); ("SCAN", t3); ("C-SCAN", t4)],
           [("FCFS", o1); ("SSTF", o2); ("SCAN", o3); ("C-SCAN", o4)]), σ')
    ∧ fcfs l 50 = Ok (v1, t1)
    ∧ sstf l 50 = Ok (v2, t2)
    ∧ scan l 50 200 = Ok (v3, t3)
    ∧ c_scan l 50 200 = Ok (v4, t4)
    ∧ σ' !! o1 = Some v1
    ∧ σ' !! o2 = Some v2
    ∧ σ' !! o3 = Some v3
    ∧ σ' !! o4 = Some v4
    ∧ σ' !! 0%nat = Some l
    ∧ NoDup [0%nat; o1; o2; o3; o4].
Proof.
  cbv zeta.
  apply (X17_comparison_shares_one_list
           {[ 0%nat := [82; 170; 43; 140; 24; 16; 190] ]} 0%nat
           [82; 170; 43; 140; 24; 16; 190] 50 200).
  reflexivity.
Defined.

(** * The claims about the metrics *)

Section metric_bounds.
Implicit Types (requests order l : list Z) (head disk_size total : Z).

Lemma truediv_fits a b :
  b ≠ 0 → Z.abs a < double_overflow * Z.abs b →
  truediv a b = Ok (Float (nearest_double a b)).
Proof.
  intros Hb Hfits. destruct (truediv_cases a b Hb) as [[? _]|[_ ?]]; [lia|done].
Qed.

Lemma Qc_zero_quotient (q : Qc) : (Qc_of_Z 0 / q)%Qc = 0%Qc.
Proof. unfold Qcdiv. rewrite Z2Qc_inj_0. apply Qcmult_0_l. Qed.

(** A path that stays within [lo, hi] moves at most [hi - lo] per step. *)
Lemma SeekCost_bounded lo hi l :
  Forall (λ x, lo ≤ x ≤ hi) l → SeekCost l ≤ (hi - lo) * Z.of_nat (length l).
Proof.
  induction l as [|a [|b l] IH]; intros Hl.
  - cbn. lia.
  - apply Forall_cons in Hl as [? _]. cbn. lia.
  - apply Forall_cons in Hl as [Ha Hl]. specialize (IH Hl).
    apply Forall_cons in Hl as [Hb _].
    rewrite SeekCost_step. cbn [length] in *. lia.
Qed.

(** Totals of paths over the cylinders the page allows, on a list of a
    size a machine can hold, are far from the float range's end. *)
Lemma small_total_fits total n steps :
  0 ≤ total ≤ 999 * steps → 1 ≤ n < 2 ^ 63 → steps ≤ n + 4 →
  total < double_overflow * n ∧ (total = 0 ∨ n < double_overflow * total).
Proof.
  intros Htotal Hn Hsteps. pose proof double_overflow_large as Hlarge.
  change (2 ^ 64) with 18446744073709551616 in Hlarge.
  change (2 ^ 63) with 9223372036854775808 in Hn.
  split; [nia|]. destruct (decide (total = 0)); [by left|right; nia].
Qed.

Lemma compare_all_fits requests head disk_size o1 t1 o2 t2 o3 t3 o4 t4 :
  requests ≠ [] →
  fcfs requests head = Ok (o1, t1) →
  sstf requests head = Ok (o2, t2) →
  scan requests head disk_size = Ok (o3, t3) →
  c_scan requests head disk_size = Ok (o4, t4) →
  Forall (λ t, 0 ≤ t < double_overflow * len requests
               ∧ (t = 0 ∨ len requests < double_overflow * t)) [t1; t2; t3; t4] →
  compare_all requests head disk_size
  = Ok (Comparison ["FCFS"; "SSTF"; "SCAN"; "C-SCAN"] [t1; t2; t3; t4]
          ((λ t, Float (nearest_double t (len requests))) <$> [t1; t2; t3; t4])
          ((λ t, if decide (t ≠ 0)
                 then Float (nearest_double (len requests) t)
                 else Int 0) <$> [t1; t2; t3; t4])
          [("FCFS", o1); ("SSTF", o2); ("SCAN", o3); ("C-SCAN", o4)]).
Proof.
  intros Hne H1 H2 H3 H4 Hfit.
  pose proof (nonempty_len _ Hne) as Hn. pose proof (len_nonneg requests).
  assert (∀ t, 0 ≤ t < double_overflow * len requests
               ∧ (t = 0 ∨ len requests < double_overflow * t) →
            truediv t (len requests) = Ok (Float (nearest_double t (len requests)))
            ∧ throughput_of requests t
              = Ok (if decide (t ≠ 0)
                    then Float (nearest_double (len requests) t)
                    else Int 0)) as Hmetric.
  { intros t [Ht Hthr]. split; [apply truediv_fits; [done|lia]|].
    destruct (decide (t = 0)) as [->|Hnz]; [done|].
    rewrite throughput_of_nonzero, decide_True by done.
    apply truediv_fits; [done|]. destruct Hthr; [done|lia]. }
  apply Forall_cons in Hfit as [[Ha1 Hb1]%Hmetric Hfit].
  apply Forall_cons in Hfit as [[Ha2 Hb2]%Hmetric Hfit].
  apply Forall_cons in Hfit as [[Ha3 Hb3]%Hmetric Hfit].
  apply Forall_cons in Hfit as [[Ha4 Hb4]%Hmetric _].
  rewrite (compare_all_metrics _ _ _ _ _ _ _ _ _ _ _ H1 H2 H3 H4).
  cbn [mapM]. rewrite Ha1, Ha2, Ha3, Ha4, Hb1, Hb2, Hb3, Hb4. done.
Qed.

End metric_bounds.

(** C9: when a policy's total seek cost is 0 on a non-empty request list,
    the run returns normally (no division fault) with average 0 and
    throughput [0]; and for a head, a disk size and a list size the page
    can supply, so does the comparison, with throughput [0] in that
    policy's row. *)
Theorem C9_zero_cost_throughput
    (algo : string) (fn : policy_fn) (requests : list Z) (head disk_size : Z)
    (order : list Z) :
  requests ≠ [] →
  dict_get (algorithms disk_size) algo = Ok fn →
  fn requests head = Ok (order, 0) →
  run_simulation algo requests head disk_size
  = Ok (Simulation order 0 (Float (Qc_of_Z 0 / Qc_of_Z (len requests))%Qc) (Int 0))
  ∧ (0 ≤ head ≤ 500 → 100 ≤ disk_size ≤ 1000 → len requests < 2 ^ 63 →
     ∃ result i,
       compare_all requests head disk_size = Ok result
       ∧ cmp_algorithm result !! i = Some algo
       ∧ cmp_total result !! i = Some 0
       ∧ cmp_throughput result !! i = Some (Int 0)).
Proof.
  intros Hne Hget Hfn. pose proof (nonempty_len _ Hne) as Hn.
  pose proof (len_nonneg requests) as Hn0.
  split.
  { rewrite (run_simulation_metrics _ _ _ _ _ _ _ Hget Hfn).
    rewrite truediv_of_zero by done. cbn [mbind outcome_bind].
    rewrite throughput_of_zero. cbn. by rewrite Qc_zero_quotient. }
  intros Hhead Hdisk Hlen.
  destruct (policy_paths requests head disk_size)
    as (o1 & o2 & o3 & o4 & H1 & H2 & H3 & H4 & -> & Hp2 & Hp3 & Hp4).
  assert (Forall (λ r, r = head) requests) as Hsame.
  { destruct (algorithms_get _ _ _ Hget) as [[-> ->]|[[-> ->]|[[-> ->]|[-> ->]]]];
      cbn beta in Hfn.
    - rewrite H1 in Hfn. injection Hfn as _ Hz. by apply SeekCost_zero.
    - rewrite H2 in Hfn. injection Hfn as _ Hz.
      apply SeekCost_zero in Hz. by rewrite Hp2 in Hz.
    - rewrite H3 in Hfn. injection Hfn as _ Hz.
      apply SeekCost_zero in Hz. rewrite Hp3 in Hz.
      by apply Forall_cons in Hz as [_ ?].
    - rewrite H4 in Hfn. injection Hfn as _ Hz.
      apply SeekCost_zero in Hz. rewrite Hp4 in Hz.
      apply Forall_cons in Hz as [_ Hz]. by apply Forall_cons in Hz as [_ ?]. }
  assert (Forall (λ x, 0 ≤ x ≤ 999) requests) as Hin.
  { eapply Forall_impl; [exact Hsame|]. cbn. intros; lia. }
  assert (∀ o extra,
            o ≡ₚ extra ++ requests → Forall (λ x, 0 ≤ x ≤ 999) extra →
            (length extra ≤ 2)%nat →
            0 ≤ SeekCost (head :: o) < double_overflow * len requests
            ∧ (SeekCost (head :: o) = 0
               ∨ len requests < double_overflow * SeekCost (head :: o)))
    as Hfit.
  { intros o extra Hperm Hextra Hcount.
    pose proof (SeekCost_nonneg (head :: o)).
    assert (SeekCost (head :: o) ≤ (999 - 0) * Z.of_nat (length (head :: o))) as Hb.
    { apply SeekCost_bounded. constructor; [lia|].
      rewrite Hperm. by apply Forall_app. }
    assert (length o = (length extra + length requests)%nat) as Hlen_o
      by (by rewrite Hperm, length_app).
    cbn [length] in Hb. rewrite Hlen_o in Hb.
    destruct (small_total_fits (SeekCost (head :: o)) (len requests)
                (Z.of_nat (S (length extra + length requests))));
      unfold len in *; [lia..|]. split; [lia|done]. }
  remember (SeekCost (head :: requests)) as t1 eqn:Ht1.
  remember (SeekCost (head :: o2)) as t2 eqn:Ht2.
  remember (SeekCost (head :: o3)) as t3 eqn:Ht3.
  remember (SeekCost (head :: o4)) as t4 eqn:Ht4.
  assert (compare_all requests head disk_size
          = Ok (Comparison ["FCFS"; "SSTF"; "SCAN"; "C-SCAN"] [t1; t2; t3; t4]
                  ((λ t, Float (nearest_double t (len requests)))
                   <$> [t1; t2; t3; t4])
                  ((λ t, if decide (t ≠ 0)
                         then Float (nearest_double (len requests) t)
                         else Int 0) <$> [t1; t2; t3; t4])
                  [("FCFS", head :: requests); ("SSTF", head :: o2);
                   ("SCAN", head :: o3); ("C-SCAN", head :: o4)])) as Hcmp.
  { apply compare_all_fits; [done..|]. subst t1 t2 t3 t4.
    repeat (apply Forall_cons; split); [..|apply Forall_nil_2].
    - apply (Hfit requests []); [done|constructor|cbn; lia].
    - apply (Hfit o2 []); [done|constructor|cbn; lia].
    - apply (Hfit o3 [disk_size - 1]); [done| |cbn; lia].
      repeat constructor; lia.
    - apply (Hfit o4 [disk_size - 1; 0]); [done| |cbn; lia].
      repeat constructor; lia. }
  destruct (algorithms_get _ _ _ Hget) as [[-> ->]|[[-> ->]|[[-> ->]|[-> ->]]]];
    cbn beta in Hfn.
  - rewrite H1 in Hfn. injection Hfn as _ Hz.
    eexists _, 0%nat. split; [exact Hcmp|]. cbn. by rewrite Hz.
  - rewrite H2 in Hfn. injection Hfn as _ Hz.
    eexists _, 1%nat. split; [exact Hcmp|]. cbn. by rewrite Hz.
  - rewrite H3 in Hfn. injection Hfn as _ Hz.
    eexists _, 2%nat. split; [exact Hcmp|]. cbn. by rewrite Hz.
  - rewrite H4 in Hfn. injection Hfn as _ Hz.
    eexists _, 3%nat. split; [exact Hcmp|]. cbn. by rewrite Hz.
Qed.

(** C9 at every request equal to the head, under FCFS. *)
Lemma C9_zero_cost_throughput_witness :
  run_simulation "FCFS" [50; 50] 50 200
  = Ok (Simulation [50; 50; 50] 0
          (Float (Qc_of_Z 0 / Qc_of_Z (len [50; 50]))%Qc) (Int 0))
  ∧ ∃ result i,
      compare_all [50; 50] 50 200 = Ok result
      ∧ cmp_algorithm result !! i = Some "FCFS"
      ∧ cmp_total result !! i = Some 0
      ∧ cmp_throughput result !! i = Some (Int 0).
Proof.
  destruct (C9_zero_cost_throughput "FCFS" fcfs [50; 50] 50 200 [50; 50; 50])
    as [Hrun Hcmp].
  - discriminate.
  - reflexivity.
  - vm_compute. reflexivity.
  - split; [exact Hrun|]. apply Hcmp.
    + lia.
    + lia.
    + vm_compute. reflexivity.
Defined.

Section no_zero_division.
Implicit Types (requests : list Z) (head disk_size : Z) (algo : string).

Lemma run_simulation_outcomes algo requests head disk_size :
  requests ≠ [] →
  run_simulation algo requests head disk_size = Raise KeyError
  ∨ run_simulation algo requests head disk_size = Raise OverflowError
  ∨ ∃ sim, run_simulation algo requests head disk_size = Ok sim.
Proof.
  intros Hne.
  destruct (dict_get_cases (algorithms disk_size) algo)
    as [(fn & Hget & _)|[Hget _]].
  - destruct (algorithms_return disk_size algo fn requests head Hget)
      as (order & Hfn).
    destruct (run_simulation_cases _ _ _ _ _ _ _ Hne Hget Hfn
                (SeekCost_nonneg order)) as [[_ Hraise]|(_ & _ & Hok)];
      [right; by left|right; right; by eexists].
  - left. unfold run_simulation. by rewrite Hget.
Qed.

End no_zero_division.

(** C7, as stated, fails: a run whose request text holds no request does
    not end in an [EmptyInput] condition. The only piece of the empty text
    is the empty string, which [int] rejects, so the run ends in the generic
    [ValueError]; [int] is here a conversion that rejects the empty string,
    as the builtin does, and it is applied to nothing else. *)
Lemma C7_empty_text_is_value_error :
  Ui.run_simulation_click
    (λ piece : string, if decide (piece = "") then None else Some 0)
    "" "FCFS" 50 200 1%Qc
  = Raise ValueError.
Proof. vm_compute. reflexivity. Qed.

(** C7 (amended): no run has an empty request list. The list parsed from
    the request text has at least one element, so the average
    [total / request_count] never divides by zero and no run ends in
    [ZeroDivisionError]; on an empty request text the only piece is the
    empty string, and when [int] rejects it the run ends in [ValueError]
    before any metric is computed. *)
Theorem C7_no_run_divides_by_zero
    (int_of : string → option Z) (req_str algo : string)
    (head disk_size : Z) (speed : Qc) :
  Ui.run_simulation_click int_of req_str algo head disk_size speed
  ≠ Raise ZeroDivisionError
  ∧ (∀ requests,
       mapM (Ui.int int_of) (Text.split ","%char req_str) = Ok requests →
       requests ≠ [])
  ∧ (int_of "" = None →
     Ui.run_simulation_click int_of "" algo head disk_size speed
     = Raise ValueError).
Proof.
  split_and!.
  - unfold Ui.run_simulation_click.
    destruct (ints_cases int_of (Text.split ","%char req_str))
      as [(requests & Hints & _)|[-> _]]; [|done].
    destruct (ints_of_split _ _ _ Hints) as [_ Hne].
    rewrite Hints. cbn [mbind outcome_bind].
    destruct (run_simulation_outcomes algo requests head disk_size Hne)
      as [->|[->|(sim & ->)]]; [done..|].
    cbn [mbind outcome_bind]. by rewrite animate_frames.
  - intros requests Hints. by destruct (ints_of_split _ _ _ Hints).
  - intros Hempty. unfold Ui.run_simulation_click. cbn [Text.split mapM].
    unfold Ui.int at 1. by rewrite Hempty.
Qed.

(** C8, as stated, fails: on the requests [2^1024, 0, 2^1024, 0] only
    FCFS's metrics step fails (its average is too large for a float), the
    runs of the other three policies return, and yet the comparison returns
    nothing: it ends in [OverflowError], with no entry for any policy. *)
Lemma C8_one_overflow_aborts_comparison :
  run_simulation "FCFS" [2 ^ 1024; 0; 2 ^ 1024; 0] 50 200 = Raise OverflowError
  ∧ (∃ sim, run_simulation "SSTF" [2 ^ 1024; 0; 2 ^ 1024; 0] 50 200 = Ok sim)
  ∧ (∃ sim, run_simulation "SCAN" [2 ^ 1024; 0; 2 ^ 1024; 0] 50 200 = Ok sim)
  ∧ (∃ sim, run_simulation "C-SCAN" [2 ^ 1024; 0; 2 ^ 1024; 0] 50 200 = Ok sim)
  ∧ compare_all [2 ^ 1024; 0; 2 ^ 1024; 0] 50 200 = Raise OverflowError.
Proof.
  split_and!; try (eexists; vm_compute; reflexivity); vm_compute; reflexivity.
Qed.

(** C8 (amended): a comparison returns all four entries or none. When one
    policy's metrics step fails, because its average [total / n] or its
    throughput [n / total] is too large for a float, the whole comparison
    ends in [OverflowError] and returns no entry; no entry carries an error
    marker. The comparison returns, with a row for each of the four
    policies, exactly when each policy's own run returns. *)
Theorem C8_comparison_all_or_nothing
    (r : Z) (requests : list Z) (head disk_size : Z) :
  (∃ result,
     compare_all (r :: requests) head disk_size = Ok result
     ∧ cmp_algorithm result = ["FCFS"; "SSTF"; "SCAN"; "C-SCAN"]
     ∧ length (cmp_total result) = 4%nat
     ∧ length (cmp_avg result) = 4%nat
     ∧ length (cmp_throughput result) = 4%nat
     ∧ keys (cmp_orders result) = ["FCFS"; "SSTF"; "SCAN"; "C-SCAN"]
     ∧ Forall (λ algo, ∃ sim,
                 run_simulation algo (r :: requests) head disk_size = Ok sim)
         ["FCFS"; "SSTF"; "SCAN"; "C-SCAN"])
  ∨ (compare_all (r :: requests) head disk_size = Raise OverflowError
     ∧ Exists (λ algo, run_simulation algo (r :: requests) head disk_size
                       = Raise OverflowError)
         ["FCFS"; "SSTF"; "SCAN"; "C-SCAN"]).
Proof. by apply compare_all_outcomes. Qed.
